(** * The covalent dispatcher core: readiness tracking, task submission,
      the per-dispatch event loop and the finalizer.

    Source: [covalent_dispatcher/_core/dispatcher.py] and the store writes
    of [covalent_dispatcher/_dal/result.py]. *)

From Stdlib Require Import ZArith String Ascii List Lia Decimal DecimalString
  DecimalNat DecimalFacts.
From stdpp Require Import base option list gmap strings fin_maps sorting.

Local Open Scope Z_scope.

(** ** Transport graph data *)

(** Attribute dictionary of an edge.  [wait_for] is the truth value of
    [d.get("wait_for")]; [param_type] is [None] when the attribute holds
    Python's [None]. *)
Record EdgeAttrs := mkAttrs {
  wait_for : bool;
  param_type : option string;
  arg_index : Z;
  edge_name : string
}.

Record Edge := mkEdge {
  source : nat;
  target : nat;
  attrs : EdgeAttrs
}.

(** Node-link serialisation of a graph, as [get_graph_nodes_links] returns it. *)
Record NodeLink := mkNodeLink {
  nl_nodes : list nat;
  nl_links : list Edge
}.

(** The part of networkx the dispatcher relies on.  Transport graphs are
    directed multigraphs: parallel edges are kept and counted. *)
Module nx.

Record MultiDiGraph := mkGraph {
  nodes : list nat;      (* in insertion order *)
  edges : list Edge
}.

Definition add_node (ns : list nat) (n : nat) : list nat :=
  if decide (n ∈ ns) then ns else ns ++ [n].

Definition add_edge (ns : list nat) (e : Edge) : list nat :=
  add_node (add_node ns (source e)) (target e).

Definition node_link_graph (d : NodeLink) : MultiDiGraph :=
  {| nodes := foldl add_edge (foldl add_node [] (nl_nodes d)) (nl_links d);
     edges := nl_links d |}.

Definition in_edges (g : MultiDiGraph) (n : nat) : list Edge :=
  filter (λ e, target e = n) (edges g).

Definition in_degree_of (g : MultiDiGraph) (n : nat) : Z :=
  Z.of_nat (length (in_edges g n)).

(** The view iterated by [for node_id, d in g.in_degree()]. *)
Definition in_degree (g : MultiDiGraph) : list (nat * Z) :=
  map (λ n, (n, in_degree_of g n)) (nodes g).

End nx.

(** ** Readiness tracker: initial ready set *)

Definition initial_step (acc : Z * list nat * gmap nat Z) (item : nat * Z)
  : Z * list nat * gmap nat Z :=
  let '(num_tasks, ready_nodes, pending_parents) := acc in
  let '(node_id, d) := item in
  let pending_parents := <[node_id := d]> pending_parents in
  let num_tasks := num_tasks + 1 in
  if decide (d = 0)
  then (num_tasks, ready_nodes ++ [node_id], pending_parents)
  else (num_tasks, ready_nodes, pending_parents).

Definition _get_initial_tasks_and_deps (g_node_link : NodeLink)
  : Z * list nat * gmap nat Z :=
  let g := nx.node_link_graph g_node_link in
  foldl initial_step (0, [], ∅) (nx.in_degree g).

(** ** Abstract task inputs *)

Record AbstractInputs := mkInputs {
  args : list nat;
  kwargs : gmap string nat
}.

(** Python's [sorted(xs, key=lambda x: x[1])]: a stable sort, here by
    insertion; an element goes in front of the later ones of equal key. *)
Fixpoint insert_by_key (x : nat * Z) (l : list (nat * Z)) : list (nat * Z) :=
  match l with
  | [] => [x]
  | y :: l' => if decide (x.2 ≤ y.2) then x :: y :: l' else y :: insert_by_key x l'
  end.

Definition sorted (l : list (nat * Z)) : list (nat * Z) :=
  foldr insert_by_key [] l.

Definition abstract_input_step
    (acc : list (nat * Z) * gmap string nat) (edge : Edge)
  : list (nat * Z) * gmap string nat :=
  let parent := source edge in
  let d := attrs edge in
  if negb (wait_for d) then
    if decide (param_type d = Some "arg") then
      (acc.1 ++ [(parent, arg_index d)], acc.2)
    else if decide (param_type d = Some "kwarg") then
      (acc.1, <[edge_name d := parent]> acc.2)
    else acc
  else acc.

(** [incoming] is the result of [datasvc.get_incoming_edges]. *)
Definition _get_abstract_task_inputs (incoming : list Edge) : AbstractInputs :=
  let abstract_task_input := foldl abstract_input_step ([], ∅) incoming in
  let sorted_args := sorted abstract_task_input.1 in
  {| args := map fst sorted_args; kwargs := abstract_task_input.2 |}.

(** ** Statuses, store records and the world the dispatcher runs in *)

(** Modelled from the spec: RESULT_STATUS (covalent._shared_files.util_classes)
    is not among the sources; these are the statuses the dispatcher and the
    spec (sections 3 and 4.3) name, with [NEW_OBJECT] for a node that has not
    run yet. *)
Inductive Status :=
  | NEW_OBJECT | RUNNING | DISPATCHING | COMPLETED | FAILED | CANCELLED.

#[global] Instance Status_eq_dec : EqDecision Status.
Proof. solve_decision. Defined.

(** A [datetime]; [None] in an optional field is Python's [None]. *)
Definition datetime := Z.

(** Attributes of a node of the transport graph. *)
Record Electron := mkElectron {
  e_name : string;
  e_status : Status;
  e_start_time : option datetime;
  e_end_time : option datetime;
  e_output : option string;
  e_error : option string;
  e_stdout : option string;
  e_stderr : option string;
  e_value : option string;
  e_executor : string;
  e_executor_data : string
}.

(** The record of one dispatch.  Node ids are the positions in [electrons],
    so the [num_nodes] metadata is the length of that list. *)
Record Store := mkStore {
  d_status : Status;
  d_start_time : option datetime;
  d_end_time : option datetime;
  d_error : option string;
  d_result : option string;
  completed_electron_num : Z;
  electrons : list Electron;
  links : list Edge
}.

Definition num_nodes (s : Store) : nat := length (electrons s).

(** Keyword arguments of [generate_dispatch_result] / [_update_dispatch]. *)
Record DispatchResult := mkDispatchResult {
  dr_start_time : option datetime;
  dr_end_time : option datetime;
  dr_status : option Status;
  dr_error : option string;
  dr_result : option string
}.

(** Keyword arguments of [_update_node]. *)
Record NodeResult := mkNodeResult {
  nr_node_id : nat;
  nr_node_name : option string;
  nr_start_time : option datetime;
  nr_end_time : option datetime;
  nr_status : option Status;
  nr_output : option string;
  nr_error : option string;
  nr_stdout : option string;
  nr_stderr : option string
}.

(** What leaves the dispatcher: store writes, tasks handed to the event
    loop of asyncio, queue operations and lifecycle calls, in order. *)
Inductive Effect :=
  | UpdateDispatchResult (dispatch_id : string) (r : DispatchResult)
  | UpdateNodeResult (dispatch_id : string) (r : NodeResult)
  | CreateTask (dispatch_id : string) (node_id : nat) (new_runner : bool)
      (selected_executor : string * string) (node_name : string)
      (abstract_inputs : AbstractInputs)
  | RunDispatch (sub_dispatch_id : string)
  | NewQueue (dispatch_id : string)
  | QueueGet (dispatch_id : string)
  | PersistResult (dispatch_id : string)
  | FinalizeDispatch (dispatch_id : string).

Record World := mkWorld {
  store : Store;
  ticks : nat;                    (* calls of datetime.now so far *)
  _status_queues : gset string;   (* keys of the module-level dict *)
  trace : list Effect
}.

Inductive exn :=
  | KeyError (key : string)
  | ConfigError (msg : string).

(** A coroutine returns, raises, or stays suspended on an empty queue. *)
Inductive Outcome (A : Type) :=
  | Ok (a : A)
  | Raise (ex : exn)
  | Blocked.
Arguments Ok {A} a.
Arguments Raise {A} ex.
Arguments Blocked {A}.

Definition M (A : Type) : Type := World → Outcome A * World.

Definition ret {A} (a : A) : M A := λ w, (Ok a, w).

Definition bind {A B} (c : M A) (k : A → M B) : M B :=
  λ w, match c w with
       | (Ok a, w') => k a w'
       | (Raise ex, w') => (Raise ex, w')
       | (Blocked, w') => (Blocked, w')
       end.

Definition raise {A} (ex : exn) : M A := λ w, (Raise ex, w).

Definition blocked {A} : M A := λ w, (Blocked, w).

(** [try: body except Exception as ex: handler ex]. *)
Definition try_except {A} (body : M A) (handler : exn → M A) : M A :=
  λ w, match body w with
       | (Raise ex, w') => handler ex w'
       | r => r
       end.

(** [try: body finally: cleanup]: the cleanup runs whether the body
    returned or raised, and an exception of the cleanup replaces the
    outcome of the body. *)
Definition try_finally {A} (body : M A) (cleanup : M unit) : M A :=
  λ w, match body w with
       | (Blocked, w') => (Blocked, w')
       | (r, w') =>
           match cleanup w' with
           | (Ok _, w'') => (r, w'')
           | (Raise ex, w'') => (Raise ex, w'')
           | (Blocked, w'') => (Blocked, w'')
           end
       end.

#[global] Instance M_ret : MRet M := @ret.
#[global] Instance M_bind : MBind M := λ A B k c, bind c k.

Definition log (e : Effect) : M unit :=
  λ w, (Ok tt, {| store := store w; ticks := ticks w;
                  _status_queues := _status_queues w;
                  trace := trace w ++ [e] |}).

Definition get_store : M Store := λ w, (Ok (store w), w).

Definition put_store (s : Store) : M unit :=
  λ w, (Ok tt, {| store := s; ticks := ticks w;
                  _status_queues := _status_queues w; trace := trace w |}).

Definition newline : string := String "010"%char EmptyString.

(** [str(n)] for a node id. *)
Definition str (n : nat) : string := NilZero.string_of_uint (Nat.to_uint n).

(** [sep.join(l)]. *)
Fixpoint join (sep : string) (l : list string) : string :=
  match l with
  | [] => EmptyString
  | [x] => x
  | x :: l' => x +:+ sep +:+ join sep l'
  end.

Definition set_electrons (s : Store) (es : list Electron) : Store :=
  {| d_status := d_status s; d_start_time := d_start_time s;
     d_end_time := d_end_time s; d_error := d_error s; d_result := d_result s;
     completed_electron_num := completed_electron_num s;
     electrons := es; links := links s |}.

(** [v if v is not None else old]. *)
Definition upd {A} (new : option A) (old : option A) : option A :=
  match new with Some v => Some v | None => old end.

Definition upd_req {A} (new : option A) (old : A) : A :=
  match new with Some v => v | None => old end.

(** ** The store writes of [_dal/result.py] *)
Module Result.

Definition _update_dispatch (r : DispatchResult) (s : Store) : Store :=
  {| d_status := upd_req (dr_status r) (d_status s);
     d_start_time := upd (dr_start_time r) (d_start_time s);
     d_end_time := upd (dr_end_time r) (d_end_time s);
     d_error := upd (dr_error r) (d_error s);
     d_result := upd (dr_result r) (d_result s);
     completed_electron_num := completed_electron_num s;
     electrons := electrons s; links := links s |}.

(** The [set_node_value] calls of [_update_node] on one node. *)
Definition set_node_values (r : NodeResult) (e : Electron) : Electron :=
  {| e_name := upd_req (nr_node_name r) (e_name e);
     e_status := upd_req (nr_status r) (e_status e);
     e_start_time := upd (nr_start_time r) (e_start_time e);
     e_end_time := upd (nr_end_time r) (e_end_time e);
     e_output := upd (nr_output r) (e_output e);
     e_error := upd (nr_error r) (e_error e);
     e_stdout := upd (nr_stdout r) (e_stdout e);
     e_stderr := upd (nr_stderr r) (e_stderr e);
     e_value := e_value e;
     e_executor := e_executor e;
     e_executor_data := e_executor_data e |}.

(** [commit] with the pending [_status] and [_end_time] that the
    postprocess branch of [_update_node] sets; the workflow result is the
    copy of the node output made just before. *)
Definition commit (_status : option Status) (_end_time : datetime)
    (workflow_result : option string) (s : Store) : Store :=
  {| d_status := upd_req _status (d_status s);
     d_start_time := d_start_time s;
     d_end_time := Some _end_time;
     d_error := d_error s;
     d_result := workflow_result;
     completed_electron_num := completed_electron_num s;
     electrons := electrons s; links := links s |}.

(** [None] is the [KeyError] of reading a node that is not in the graph. *)
Definition _update_node (postprocess_prefix : string) (r : NodeResult)
    (s : Store) : option Store :=
  match electrons s !! nr_node_id r with
  | None => None
  | Some e =>
      let name := e_name e in
      let e' := set_node_values r e in
      let s1 := set_electrons s (<[nr_node_id r := e']> (electrons s)) in
      let s2 :=
        if decide (nr_status r = Some COMPLETED)
        then {| d_status := d_status s1; d_start_time := d_start_time s1;
                d_end_time := d_end_time s1; d_error := d_error s1;
                d_result := d_result s1;
                completed_electron_num := completed_electron_num s1 + 1;
                electrons := electrons s1; links := links s1 |}
        else s1 in
      match nr_end_time r with
      | Some end_time =>
          if String.prefix postprocess_prefix name
          then Some (commit (nr_status r) end_time (e_output e') s2)
          else Some s2
      | None => Some s2
      end
  end.

Definition nodes_with_status (st : Status) (s : Store) : list (nat * string) :=
  omap (λ x, x)
    (imap (λ i e, if decide (e_status e = st) then Some (i, e_name e) else None)
          (electrons s)).

(** The pair of lists under the keys "failed" and "cancelled". *)
Definition _get_incomplete_nodes (s : Store)
  : list (nat * string) * list (nat * string) :=
  (nodes_with_status FAILED s, nodes_with_status CANCELLED s).

End Result.

(** ** Graph store adapter

    The module [data_manager] (imported as [datasvc]) is not among the
    sources; section 6 of the specification gives its interface.  The world
    holds the record of the dispatch [dispatch_id]. *)
Module datasvc.

(** Modelled from the spec: [get_incoming_edges] of the absent
    [data_manager]; section 6: the edges into the node, each with its
    source and attributes. *)
Definition get_incoming_edges (dispatch_id : string) (node_id : nat)
  : M (list Edge) :=
  s ← get_store; mret (filter (λ e, target e = node_id) (links s)).

(** Modelled from the spec: [get_node_successors] of the absent
    [data_manager]; sections 4.1 and 6: the list of the children of the
    node, a child once for each edge that leads to it. *)
Definition get_node_successors (dispatch_id : string) (node_id : nat)
  : M (list nat) :=
  s ← get_store;
  mret (map target (filter (λ e, source e = node_id) (links s))).

(** Modelled from the spec: [get_graph_nodes_links] of the absent
    [data_manager]; section 6: the graph in node-link form. *)
Definition get_graph_nodes_links (dispatch_id : string) : M NodeLink :=
  s ← get_store;
  mret {| nl_nodes := seq 0%nat (num_nodes s); nl_links := links s |}.

(** Modelled from the spec: [get_electron_attribute] of the absent
    [data_manager]; section 6: the value of an attribute of the node.  [key]
    is the projection for the attribute name; a node that is not in the
    graph is a [KeyError]. *)
Definition get_electron_attribute {A} (dispatch_id : string) (node_id : nat)
    (key : Electron → A) : M A :=
  s ← get_store;
  match electrons s !! node_id with
  | Some e => mret (key e)
  | None => raise (KeyError (str node_id))
  end.

(** Modelled from the spec: [update_node_result] of the absent
    [data_manager]; section 6: the node result is written to the store, by
    [Result._update_node]. *)
Definition update_node_result (postprocess_prefix : string)
    (dispatch_id : string) (node_result : NodeResult) : M unit :=
  s ← get_store;
  match Result._update_node postprocess_prefix node_result s with
  | Some s' => put_store s';; log (UpdateNodeResult dispatch_id node_result)
  | None => raise (KeyError (str (nr_node_id node_result)))
  end.

(** Modelled from the spec: [generate_dispatch_result] of the absent
    [data_manager]; section 6: the given fields as a dispatch result. *)
Definition generate_dispatch_result (dispatch_id : string)
    (start_time end_time : option datetime) (status : option Status)
    (error result : option string) : DispatchResult :=
  {| dr_start_time := start_time; dr_end_time := end_time;
     dr_status := status; dr_error := error; dr_result := result |}.

(** Modelled from the spec: [update_dispatch_result] of the absent
    [data_manager]; section 6: the dispatch result is written to the store,
    by [Result._update_dispatch]. *)
Definition update_dispatch_result (dispatch_id : string)
    (dispatch_result : DispatchResult) : M unit :=
  s ← get_store;
  put_store (Result._update_dispatch dispatch_result s);;
  log (UpdateDispatchResult dispatch_id dispatch_result).

(** Modelled from the spec: [get_dispatch_attributes] of the absent
    [data_manager], called with the keys ["status"] and read at "status". *)
Definition get_dispatch_status (dispatch_id : string) : M Status :=
  s ← get_store; mret (d_status s).

(** Modelled from the spec: [get_incomplete_tasks] of the absent
    [data_manager]; section 6: the failed and the cancelled nodes with their
    names, as [Result._get_incomplete_nodes] collects them. *)
Definition get_incomplete_tasks (dispatch_id : string)
  : M (list (nat * string) * list (nat * string)) :=
  s ← get_store; mret (Result._get_incomplete_nodes s).

(** Modelled from the spec: [persist_result] of the absent [data_manager];
    section 6: lifecycle bookkeeping. *)
Definition persist_result (dispatch_id : string) : M unit :=
  log (PersistResult dispatch_id).

(** Modelled from the spec: [finalize_dispatch] of the absent
    [data_manager]; section 6: lifecycle bookkeeping. *)
Definition finalize_dispatch (dispatch_id : string) : M unit :=
  log (FinalizeDispatch dispatch_id).

End datasvc.

(** ** Status queue entries *)

Record Event := mkEvent {
  ev_node : nat;
  ev_status : Status;
  ev_detail : gmap string string
}.

(** The local variables of the event loop. *)
Record LoopState := mkLoop {
  tasks_left : Z;
  unresolved_tasks : Z;
  pending_parents : gmap nat Z
}.

(** ** Readiness tracker: completion of a node

    The body of the [for child in ...] loop of [_handle_completed_node] over
    the successor list; a child missing from the dictionary is a
    [KeyError]. *)
Fixpoint handle_children (children : list nat) (ready_nodes : list nat)
    (pending_parents : gmap nat Z) : Outcome (list nat * gmap nat Z) :=
  match children with
  | [] => Ok (ready_nodes, pending_parents)
  | child :: rest =>
      match pending_parents !! child with
      | None => Raise (KeyError (str child))
      | Some k =>
          let pending_parents := <[child := k - 1]> pending_parents in
          if decide (k - 1 < 1)
          then handle_children rest (ready_nodes ++ [child]) pending_parents
          else handle_children rest ready_nodes pending_parents
      end
  end.

Definition lift {A} (o : Outcome A) : M A := λ w, (o, w).

Definition _handle_completed_node (dispatch_id : string) (node_id : nat)
    (pending_parents : gmap nat Z) : M (list nat * gmap nat Z) :=
  children ← datasvc.get_node_successors dispatch_id node_id;
  lift (handle_children children [] pending_parents).

Definition _handle_failed_node (dispatch_id : string) (node_id : nat) : M unit :=
  mret tt.

Definition _handle_cancelled_node (dispatch_id : string) (node_id : nat) : M unit :=
  mret tt.

(** [asyncio.create_task(run_workflow(dispatch_id))]: the child loop runs as
    a task of its own. *)
Definition run_dispatch (dispatch_id : string) : M unit :=
  log (RunDispatch dispatch_id).

Definition _plan_workflow (dispatch_id : string) : M unit := mret tt.

(** What the dispatcher takes from its environment. *)
Record Env := mkEnv {
  (** Constants of [covalent._shared_files.defaults]. *)
  parameter_prefix : string;
  postprocess_prefix : string;
  (** The configuration flag read at import time. *)
  NEW_RUNNER_ENABLED : bool;
  (** The wall clock: the value returned by the n-th call of [datetime.now]. *)
  wall_clock : nat → datetime;
  (** The text of
      [join(traceback.TracebackException.from_exception(ex).format())]. *)
  format_exception : exn → string;
  (** The error, if any, of resolving an executor name at submission. *)
  executor_error : string → option exn
}.

Section Dispatcher.

Variable env : Env.

Definition now : M datetime :=
  λ w, (Ok (wall_clock env (ticks w)),
        {| store := store w; ticks := S (ticks w);
           _status_queues := _status_queues w; trace := trace w |}).

(** Modelled from the spec: [runner.run_abstract_task] and
    [runner_exp.run_abstract_task] are not among the sources; by sections 4.2
    and 7 a submission whose executor cannot be resolved raises a
    configuration error synchronously, and otherwise a unit of work is
    scheduled; [new_runner] tells which of the two runners is called. *)
Definition run_abstract_task (new_runner : bool) (dispatch_id : string)
    (node_id : nat) (selected_executor : string * string) (node_name : string)
    (abstract_inputs : AbstractInputs) : M Effect :=
  match executor_error env selected_executor.1 with
  | Some ex => raise ex
  | None => mret (CreateTask dispatch_id node_id new_runner selected_executor
                             node_name abstract_inputs)
  end.

Definition _submit_task (dispatch_id : string) (node_id : nat) : M unit :=
  node_name ← datasvc.get_electron_attribute dispatch_id node_id e_name;
  if String.prefix (parameter_prefix env) node_name then
    output ← datasvc.get_electron_attribute dispatch_id node_id e_value;
    start_time ← now;
    end_time ← now;
    let node_result :=
      {| nr_node_id := node_id; nr_node_name := None;
         nr_start_time := Some start_time; nr_end_time := Some end_time;
         nr_status := Some COMPLETED; nr_output := output;
         nr_error := None; nr_stdout := None; nr_stderr := None |} in
    datasvc.update_node_result (postprocess_prefix env) dispatch_id node_result
  else
    incoming ← datasvc.get_incoming_edges dispatch_id node_id;
    let abs_task_input := _get_abstract_task_inputs incoming in
    selected_executor ← datasvc.get_electron_attribute dispatch_id node_id e_executor;
    selected_executor_data ←
      datasvc.get_electron_attribute dispatch_id node_id e_executor_data;
    coro ← run_abstract_task (NEW_RUNNER_ENABLED env) dispatch_id node_id
             (selected_executor, selected_executor_data) node_name abs_task_input;
    log coro.

(** [for node_id in nodes: unresolved_tasks += 1; await _submit_task(...)]. *)
Fixpoint submit_all (dispatch_id : string) (nodes : list nat)
    (unresolved_tasks : Z) : M Z :=
  match nodes with
  | [] => mret unresolved_tasks
  | node_id :: rest =>
      let unresolved_tasks := unresolved_tasks + 1 in
      _submit_task dispatch_id node_id;;
      submit_all dispatch_id rest unresolved_tasks
  end.

(** One pass of the body of the [while] loop on the entry read from the
    queue. *)
Definition handle_event (dispatch_id : string) (ev : Event) (ls : LoopState)
  : M LoopState :=
  let node_id := ev_node ev in
  let node_status := ev_status ev in
  if decide (node_status = RUNNING) then mret ls
  else if decide (node_status = DISPATCHING) then
    match ev_detail ev !! "sub_dispatch_id" with
    | None => raise (KeyError "sub_dispatch_id")
    | Some sub_dispatch_id => run_dispatch sub_dispatch_id;; mret ls
    end
  else
    let unresolved_tasks := unresolved_tasks ls - 1 in
    ls ←
      (if decide (node_status = COMPLETED) then
         let tasks_left := tasks_left ls - 1 in
         '(ready_nodes, pending_parents) ←
           _handle_completed_node dispatch_id node_id (pending_parents ls);
         unresolved_tasks ← submit_all dispatch_id ready_nodes unresolved_tasks;
         mret {| tasks_left := tasks_left; unresolved_tasks := unresolved_tasks;
                 pending_parents := pending_parents |}
       else
         mret {| tasks_left := tasks_left ls; unresolved_tasks := unresolved_tasks;
                 pending_parents := pending_parents ls |});
    if decide (node_status = FAILED) then
      _handle_failed_node dispatch_id node_id;; mret ls
    else if decide (node_status = CANCELLED) then
      _handle_cancelled_node dispatch_id node_id;; mret ls
    else mret ls.

(** [while unresolved_tasks > 0: ... = await status_queue.get() ...], with
    [events] the entries the queue delivers, in order. *)
Fixpoint event_loop (dispatch_id : string) (events : list Event) (ls : LoopState)
  : M LoopState :=
  if decide (unresolved_tasks ls > 0) then
    log (QueueGet dispatch_id);;
    match events with
    | [] => blocked
    | ev :: events' =>
        ls ← handle_event dispatch_id ev ls;
        event_loop dispatch_id events' ls
    end
  else mret ls.

Definition _finalize_dispatch (dispatch_id : string) : M Status :=
  '(failed, cancelled) ← datasvc.get_incomplete_tasks dispatch_id;
  (if decide (failed ≠ [] ∨ cancelled ≠ []) then
     let failed_nodes := failed in
     let failed_nodes := map (λ x, str x.1 +:+ ": " +:+ x.2) failed_nodes in
     let failed_nodes_msg := join newline failed_nodes in
     let error_msg := "The following tasks failed:" +:+ newline +:+ failed_nodes_msg in
     ts ← now;
     let status := if decide (failed ≠ []) then FAILED else CANCELLED in
     let result_update :=
       datasvc.generate_dispatch_result dispatch_id None (Some ts) (Some status)
         (Some error_msg) None in
     datasvc.update_dispatch_result dispatch_id result_update
   else mret tt);;
  datasvc.get_dispatch_status dispatch_id.

(** [_run_planned_workflow] up to the end of its [while] loop; the value is
    the final state of the local variables. *)
Definition run_event_loop (dispatch_id : string) (events : list Event)
  : M LoopState :=
  start_time ← now;
  let dispatch_result :=
    datasvc.generate_dispatch_result dispatch_id (Some start_time) None
      (Some RUNNING) None None in
  datasvc.update_dispatch_result dispatch_id dispatch_result;;
  g_node_link ← datasvc.get_graph_nodes_links dispatch_id;
  let '(tasks_left, initial_nodes, pending_parents) :=
    _get_initial_tasks_and_deps g_node_link in
  unresolved_tasks ← submit_all dispatch_id initial_nodes 0;
  event_loop dispatch_id events
    {| tasks_left := tasks_left; unresolved_tasks := unresolved_tasks;
       pending_parents := pending_parents |}.

Definition _run_planned_workflow (dispatch_id : string) (events : list Event)
  : M Status :=
  run_event_loop dispatch_id events;;
  _finalize_dispatch dispatch_id.

Definition add_queue (dispatch_id : string) : M unit :=
  λ w, (Ok tt, {| store := store w; ticks := ticks w;
                  _status_queues := {[dispatch_id]} ∪ _status_queues w;
                  trace := trace w |}).

(** [_status_queues[dispatch_id] = asyncio.Queue()]. *)
Definition new_queue (dispatch_id : string) : M unit :=
  log (NewQueue dispatch_id);;
  add_queue dispatch_id.

(** [_status_queues.pop(dispatch_id)]. *)
Definition pop_queue (dispatch_id : string) : M unit :=
  λ w, if decide (dispatch_id ∈ _status_queues w)
       then (Ok tt, {| store := store w; ticks := ticks w;
                       _status_queues := _status_queues w ∖ {[dispatch_id]};
                       trace := trace w |})
       else (Raise (KeyError dispatch_id), w).

(** [events] are the entries delivered on the queue created for this run. *)
Definition run_workflow (dispatch_id : string) (events : list Event) : M Status :=
  status ← datasvc.get_dispatch_status dispatch_id;
  if decide (status = COMPLETED) then
    datasvc.finalize_dispatch dispatch_id;;
    mret COMPLETED
  else
    try_finally
      (try_except
         (_plan_workflow dispatch_id;;
          new_queue dispatch_id;;
          _run_planned_workflow dispatch_id events)
         (λ ex,
            let error_msg := format_exception env ex in
            end_time ← now;
            let dispatch_result :=
              datasvc.generate_dispatch_result dispatch_id None (Some end_time)
                (Some FAILED) (Some error_msg) None in
            let dispatch_status := FAILED in
            datasvc.update_dispatch_result dispatch_id dispatch_result;;
            mret dispatch_status))
      (datasvc.persist_result dispatch_id;;
       datasvc.finalize_dispatch dispatch_id;;
       pop_queue dispatch_id).

End Dispatcher.

(** ** Example data *)

Definition plain_attrs : EdgeAttrs :=
  {| wait_for := false; param_type := Some "arg"; arg_index := 0;
     edge_name := "x" |}.

Definition plain_edge (a b : nat) : Edge :=
  {| source := a; target := b; attrs := plain_attrs |}.

(** The graph with edges (0,1), (0,2), (1,3), (2,3). *)
Definition diamond : NodeLink :=
  {| nl_nodes := [0; 1; 2; 3]%nat;
     nl_links := [plain_edge 0 1; plain_edge 0 2; plain_edge 1 3; plain_edge 2 3] |}.

(** ** The inputs of a task in the words of the specification *)

(** Incoming edges that carry a value: those whose [wait_for] is false. *)
Definition value_edges (incoming : list Edge) : list Edge :=
  filter (λ e, wait_for (attrs e) = false) incoming.

Definition arg_edges (incoming : list Edge) : list Edge :=
  filter (λ e, param_type (attrs e) = Some "arg") (value_edges incoming).

Definition kwarg_edges (incoming : list Edge) : list Edge :=
  filter (λ e, param_type (attrs e) = Some "kwarg") (value_edges incoming).

Definition by_arg_index (x y : nat * Z) : Prop := x.2 ≤ y.2.

Definition mixed_edges : list Edge :=
  [ {| source := 7; target := 9;
       attrs := {| wait_for := false; param_type := Some "arg"; arg_index := 1;
                   edge_name := "b" |} |};
    {| source := 5; target := 9;
       attrs := {| wait_for := true; param_type := None; arg_index := 0;
                   edge_name := "w" |} |};
    {| source := 3; target := 9;
       attrs := {| wait_for := false; param_type := Some "kwarg"; arg_index := 0;
                   edge_name := "k" |} |};
    {| source := 4; target := 9;
       attrs := {| wait_for := false; param_type := Some "arg"; arg_index := 0;
                   edge_name := "a" |} |} ]%nat.

(** ** Observations on worlds *)

(** What a call may not touch: the queue registry, the edges and the number
    of nodes; the trace only grows and the clock only advances. *)
Definition frame (w w' : World) : Prop :=
  _status_queues w' = _status_queues w
  ∧ links (store w') = links (store w)
  ∧ length (electrons (store w')) = length (electrons (store w))
  ∧ (ticks w ≤ ticks w')%nat
  ∧ ∃ δ, trace w' = trace w ++ δ.

Definition framed {A} (c : M A) : Prop :=
  ∀ w o w', c w = (o, w') → frame w w'.

(** The node a trace entry submits: a runner task created for it, or the
    result of a parameter node written. *)
Definition submitted_node (e : Effect) : option nat :=
  match e with
  | CreateTask _ node_id _ _ _ _ => Some node_id
  | UpdateNodeResult _ r => Some (nr_node_id r)
  | _ => None
  end.

Definition submitted (tr : list Effect) : list nat := omap submitted_node tr.

Definition is_queue_get (e : Effect) : bool :=
  match e with QueueGet _ => true | _ => false end.

(** The world once [run_workflow] has registered the queue of the dispatch. *)
Definition queued (dispatch_id : string) (w : World) : World :=
  {| store := store w; ticks := ticks w;
     _status_queues := {[dispatch_id]} ∪ _status_queues w;
     trace := trace w ++ [NewQueue dispatch_id] |}.

(** The result [_submit_task] writes for a parameter node, given the two
    clock readings. *)
Definition parameter_result (node_id : nat) (start_time end_time : datetime)
    (output : option string) : NodeResult :=
  {| nr_node_id := node_id; nr_node_name := None;
     nr_start_time := Some start_time; nr_end_time := Some end_time;
     nr_status := Some COMPLETED; nr_output := output;
     nr_error := None; nr_stdout := None; nr_stderr := None |}.

(** The text of an entry of the error message of a dispatch. *)
Definition failed_entry (x : nat * string) : string := str x.1 +:+ ": " +:+ x.2.

Definition failure_message (entries : list (nat * string)) : string :=
  "The following tasks failed:" +:+ newline +:+ join newline (map failed_entry entries).

Definition has_status (st : Status) (s : Store) : Prop :=
  ∃ i e, electrons s !! i = Some e ∧ e_status e = st.

(** ** Observations on a run of the event loop *)

(** The graph [_get_initial_tasks_and_deps] builds from the store. *)
Definition graph_of (s : Store) : nx.MultiDiGraph :=
  nx.node_link_graph {| nl_nodes := seq 0%nat (num_nodes s); nl_links := links s |}.

(** Nodes of the COMPLETED entries of a list of queue entries. *)
Definition completed_nodes (events : list Event) : list nat :=
  map ev_node (filter (λ ev, ev_status ev = COMPLETED) events).

(** An entry that resolves a task: any status but RUNNING and DISPATCHING. *)
Definition resolves (ev : Event) : Prop :=
  ev_status ev ≠ RUNNING ∧ ev_status ev ≠ DISPATCHING.

Definition resolved (events : list Event) : list Event := filter resolves events.

Definition occurrences (c : nat) (l : list nat) : Z :=
  Z.of_nat (length (filter (λ x, x = c) l)).

(** Number of edges from [p] to [c]. *)
Definition edges_between (ls : list Edge) (p c : nat) : Z :=
  Z.of_nat (length (filter (λ e, source e = p ∧ target e = c) ls)).

(** Number of edges into [c] whose source is not among [done]. *)
Definition pending_of (ls : list Edge) (done : list nat) (c : nat) : Z :=
  Z.of_nat (length (filter (λ e, target e = c ∧ source e ∉ done) ls)).

(** All parents of [c] are among [done]. *)
Definition all_parents_in (ls : list Edge) (done : list nat) (c : nat) : Prop :=
  ∀ e, e ∈ ls → target e = c → source e ∈ done.

(** What holds of the nodes [subs] submitted since the world [w0] in which
    the run started, after the queue entries [hist], even when a submission
    raised. *)
Definition partial_inv (w0 : World) (hist : list Event) (subs : list nat)
    (w : World) : Prop :=
  frame w0 w
  ∧ submitted (trace w) = submitted (trace w0) ++ subs
  ∧ NoDup subs
  ∧ ∀ n, n ∈ subs →
         n ∈ nx.nodes (graph_of (store w0))
         ∧ pending_of (links (store w0)) (completed_nodes hist) n = 0.

(** The invariant of the [while] loop between two passes. *)
Definition loop_inv (w0 : World) (hist : list Event) (subs : list nat)
    (ls : LoopState) (w : World) : Prop :=
  frame w0 w
  ∧ submitted (trace w) = submitted (trace w0) ++ subs
  ∧ NoDup subs
  ∧ (∀ n, n ∈ subs ↔
          n ∈ nx.nodes (graph_of (store w0))
          ∧ pending_of (links (store w0)) (completed_nodes hist) n = 0)
  ∧ (∀ n, n ∈ nx.nodes (graph_of (store w0)) →
          pending_parents ls !! n
          = Some (pending_of (links (store w0)) (completed_nodes hist) n))
  ∧ unresolved_tasks ls
    = Z.of_nat (length subs) - Z.of_nat (length (resolved hist))
  ∧ 0 ≤ unresolved_tasks ls
  ∧ tasks_left ls
    = Z.of_nat (length (nx.nodes (graph_of (store w0))))
      - Z.of_nat (length (completed_nodes hist)).

(** Nodes submitted between the worlds [w] and [w']. *)
Definition submitted_since (w w' : World) : list nat :=
  drop (length (submitted (trace w))) (submitted (trace w')).

(** Reachable from the nodes without parents by following "all parents
    completed": every parent is completed and itself reachable. *)
Inductive reachable (ls : list Edge) (nodes done : list nat) : nat → Prop :=
  | reachable_intro n :
      n ∈ nodes →
      (∀ e, e ∈ ls → target e = n → source e ∈ done) →
      (∀ e, e ∈ ls → target e = n → reachable ls nodes done (source e)) →
      reachable ls nodes done n.

Inductive ancestor (ls : list Edge) : nat → nat → Prop :=
  | ancestor_parent e : e ∈ ls → ancestor ls (source e) (target e)
  | ancestor_step e n :
      e ∈ ls → ancestor ls (target e) n → ancestor ls (source e) n.

(** The edges form a directed acyclic graph: they go up along a rank. *)
Definition acyclic (ls : list Edge) : Prop :=
  ∃ rank : nat → nat, ∀ e, e ∈ ls → (rank (source e) < rank (target e))%nat.

(** The node [a] reported FAILED or CANCELLED among [events]. *)
Definition failed_or_cancelled (events : list Event) (a : nat) : Prop :=
  ∃ ev, ev ∈ events ∧ ev_node ev = a
        ∧ (ev_status ev = FAILED ∨ ev_status ev = CANCELLED).

(** ** Example worlds *)

Definition show_exn (ex : exn) : string :=
  match ex with
  | KeyError k => "KeyError: " +:+ k
  | ConfigError m => "ConfigError: " +:+ m
  end.

(** An environment whose clock advances by one at every reading. *)
Definition ticking_env : Env :=
  {| parameter_prefix := ":parameter:";
     postprocess_prefix := ":postprocess:";
     NEW_RUNNER_ENABLED := false;
     wall_clock := Z.of_nat;
     format_exception := show_exn;
     executor_error := λ name,
       if decide (name = "unknown") then Some (ConfigError name) else None |}.

Definition electron (name : string) (st : Status) (value : option string)
    (executor : string) : Electron :=
  {| e_name := name; e_status := st; e_start_time := None; e_end_time := None;
     e_output := None; e_error := None; e_stdout := None; e_stderr := None;
     e_value := value; e_executor := executor; e_executor_data := "{}" |}.

Definition world_of (st : Status) (es : list Electron) (ls : list Edge) : World :=
  {| store := {| d_status := st; d_start_time := None; d_end_time := None;
                 d_error := None; d_result := None; completed_electron_num := 0;
                 electrons := es; links := ls |};
     ticks := 0; _status_queues := ∅; trace := [] |}.

Definition parameter_world : World :=
  world_of RUNNING [electron ":parameter:2" NEW_OBJECT (Some "2") "local"] [].

Definition failed_and_cancelled_world : World :=
  world_of RUNNING
    [electron "a" FAILED None "local"; electron "b" CANCELLED None "local"] [].

Definition completed_world : World :=
  world_of COMPLETED [electron "a" COMPLETED None "local"] [].

Definition empty_world : World := world_of NEW_OBJECT [] [].

Definition unknown_executor_world : World :=
  world_of NEW_OBJECT [electron "a" NEW_OBJECT None "unknown"] [].

Definition event (n : nat) (st : Status) : Event :=
  {| ev_node := n; ev_status := st; ev_detail := ∅ |}.

(** A -> B. *)
Definition chain_world : World :=
  world_of NEW_OBJECT
    [electron "a" NEW_OBJECT None "local"; electron "b" NEW_OBJECT None "local"]
    [plain_edge 0 1].

Definition diamond_world : World :=
  world_of NEW_OBJECT
    [electron "a" NEW_OBJECT None "local"; electron "b" NEW_OBJECT None "local";
     electron "c" NEW_OBJECT None "local"; electron "d" NEW_OBJECT None "local"]
    (nl_links diamond).

(** Two edges from node 0 to node 1, with different attributes. *)
Definition parallel_world : World :=
  world_of NEW_OBJECT
    [electron "a" NEW_OBJECT None "local"; electron "f" NEW_OBJECT None "local"]
    [ {| source := 0; target := 1;
         attrs := {| wait_for := false; param_type := Some "arg";
                     arg_index := 0; edge_name := "x" |} |};
      {| source := 0; target := 1;
         attrs := {| wait_for := false; param_type := Some "arg";
                     arg_index := 1; edge_name := "y" |} |} ]%nat.

Definition single_world : World :=
  world_of NEW_OBJECT [electron "sub" NEW_OBJECT None "local"] [].

Definition dispatching_event : Event :=
  {| ev_node := 0; ev_status := DISPATCHING;
     ev_detail := {[ "sub_dispatch_id" := "child" ]} |}.

(** ** The rest of the dispatcher *)

(** [notify_node_status]: the entry is put on the queue registered for the
    dispatch; the value is that entry, which the loop of the dispatch will
    read.  A dispatch without a registered queue is a [KeyError]. *)
Definition notify_node_status (dispatch_id : string) (node_id : nat)
    (status : Status) (detail : gmap string string) : M Event :=
  λ w, if decide (dispatch_id ∈ _status_queues w)
       then (Ok {| ev_node := node_id; ev_status := status; ev_detail := detail |}, w)
       else (Raise (KeyError dispatch_id), w).

(** [cancel_workflow]: its body is [pass]. *)
Definition cancel_workflow (dispatch_id : string) : M unit := mret tt.

(** [Result._get_failed_nodes]. *)
Definition _get_failed_nodes (s : Store) : list (nat * string) :=
  (Result._get_incomplete_nodes s).1.

(** The key [f"{node_name}({node_id})"] of a node in the dict of
    [get_all_node_outputs]. *)
Definition output_key (node_name : string) (node_id : nat) : string :=
  node_name +:+ "(" +:+ str node_id +:+ ")".

(** [Result.get_all_node_outputs]: the loop over the nodes of the graph, in
    the order of their ids, that assigns the output of each node under its
    key. *)
Definition get_all_node_outputs (s : Store) : gmap string (option string) :=
  foldl (λ all_node_outputs ne,
           <[output_key (e_name ne.2) ne.1 := e_output ne.2]> all_node_outputs)
        ∅ (imap pair (electrons s)).

(** ** Further observations *)

(** A computation keeps a relation between the world before and after. *)
Definition preserves {A} (R : World → World → Prop) (c : M A) : Prop :=
  ∀ w o w', c w = (o, w') → R w w'.

Definition is_node_write (e : Effect) : bool :=
  match e with UpdateNodeResult _ _ => true | _ => false end.

Definition is_dispatch_write (e : Effect) : bool :=
  match e with UpdateDispatchResult _ _ => true | _ => false end.

(** The number of trace entries with a property. *)
Definition count_of (f : Effect → bool) (tr : list Effect) : Z :=
  Z.of_nat (length (filter f tr)).

(** Bookkeeping between two worlds: the completed count grows by the node
    results written, and the clock was read once for every dispatch result
    and twice for every node result written. *)
Definition accounted (w w' : World) : Prop :=
  ∃ δ, trace w' = trace w ++ δ
       ∧ completed_electron_num (store w')
         = completed_electron_num (store w) + count_of is_node_write δ
       ∧ Z.of_nat (ticks w')
         = Z.of_nat (ticks w) + count_of is_dispatch_write δ
           + 2 * count_of is_node_write δ.

(** The records of the nodes between two worlds: every node keeps its name,
    value and executor, and a node whose name does not have the prefix [pfx]
    keeps its whole record. *)
Definition records_kept (pfx : string) (w w' : World) : Prop :=
  ∀ i e, electrons (store w) !! i = Some e →
         ∃ e', electrons (store w') !! i = Some e'
               ∧ e_name e' = e_name e
               ∧ e_value e' = e_value e
               ∧ e_executor e' = e_executor e
               ∧ e_executor_data e' = e_executor_data e
               ∧ (String.prefix pfx (e_name e) = false → e' = e).

(** The graph and the records of the nodes between two worlds. *)
Definition store_kept (pfx : string) (w w' : World) : Prop :=
  links (store w') = links (store w)
  ∧ length (electrons (store w')) = length (electrons (store w))
  ∧ records_kept pfx w w'.

(** Two dispatch results in one: a field of the later one wins when it is
    given. *)
Definition later_wins (r1 r2 : DispatchResult) : DispatchResult :=
  {| dr_start_time := upd (dr_start_time r2) (dr_start_time r1);
     dr_end_time := upd (dr_end_time r2) (dr_end_time r1);
     dr_status := upd (dr_status r2) (dr_status r1);
     dr_error := upd (dr_error r2) (dr_error r1);
     dr_result := upd (dr_result r2) (dr_result r1) |}.

(** The fields of the dispatch itself. *)
Definition dispatch_fields (s : Store)
  : Status * option datetime * option datetime * option string * option string :=
  (d_status s, d_start_time s, d_end_time s, d_error s, d_result s).

(** * Properties *)

(** ** The graph built from node-link data *)

Lemma add_node_NoDup ns n : NoDup ns → NoDup (nx.add_node ns n).
Proof.
  intros Hnd. unfold nx.add_node. case_decide; [done|].
  apply NoDup_app. split_and!; [done| |apply NoDup_singleton].
  intros x Hx ->%list_elem_of_singleton. done.
Qed.

Lemma elem_of_add_node ns n x : x ∈ nx.add_node ns n ↔ x ∈ ns ∨ x = n.
Proof.
  unfold nx.add_node. case_decide as Hn.
  { split; [by left|]. by intros [?| ->]. }
  rewrite elem_of_app, list_elem_of_singleton. done.
Qed.

Lemma foldl_add_node_spec l : ∀ ns,
  NoDup ns →
  NoDup (foldl nx.add_node ns l)
  ∧ ∀ x, x ∈ foldl nx.add_node ns l ↔ x ∈ ns ∨ x ∈ l.
Proof.
  induction l as [|n l IH]; intros ns Hnd; simpl.
  - split; [done|]. intros x. rewrite elem_of_nil. tauto.
  - destruct (IH (nx.add_node ns n) (add_node_NoDup _ _ Hnd)) as [H1 H2].
    split; [done|]. intros x. rewrite H2, elem_of_add_node, elem_of_cons.
    split; [intros [[?| ->]|?]|intros [?|[ -> |?]]]; tauto.
Qed.

Lemma foldl_add_edge_spec l : ∀ ns,
  NoDup ns →
  NoDup (foldl nx.add_edge ns l)
  ∧ ∀ x, x ∈ foldl nx.add_edge ns l
         ↔ x ∈ ns ∨ ∃ e, e ∈ l ∧ (x = source e ∨ x = target e).
Proof.
  induction l as [|e l IH]; intros ns Hnd; simpl.
  - split; [done|]. intros x. split; [naive_solver|].
    intros [?|(e & He & _)]; [done|]. by apply elem_of_nil in He.
  - assert (NoDup (nx.add_edge ns e)) as Hnd'
      by (unfold nx.add_edge; by do 2 apply add_node_NoDup).
    destruct (IH _ Hnd') as [H1 H2]. split; [done|].
    intros x. rewrite H2. unfold nx.add_edge.
    rewrite !elem_of_add_node. split.
    + intros [[[?| -> ]| -> ]|(e' & He' & Hx)]; [by left|right; exists e..|].
      * split; [by left|by left].
      * split; [by left|by right].
      * right. exists e'. split; [by right|done].
    + intros [?|(e' & [ -> |He']%elem_of_cons & Hx)]; [by do 3 left| |].
      * destruct Hx as [ -> | -> ]; [left; left; by right|left; by right].
      * right. eauto.
Qed.

Lemma node_link_graph_NoDup d : NoDup (nx.nodes (nx.node_link_graph d)).
Proof.
  simpl. apply foldl_add_edge_spec, foldl_add_node_spec. constructor.
Qed.

Lemma elem_of_node_link_graph d x :
  x ∈ nx.nodes (nx.node_link_graph d)
  ↔ x ∈ nl_nodes d ∨ ∃ e, e ∈ nl_links d ∧ (x = source e ∨ x = target e).
Proof.
  simpl.
  destruct (foldl_add_node_spec (nl_nodes d) [] (NoDup_nil_2)) as [Hnd Hin].
  destruct (foldl_add_edge_spec (nl_links d) _ Hnd) as [_ Hin'].
  rewrite Hin', Hin, elem_of_nil. tauto.
Qed.

(** ** Initial ready set *)

Lemma foldl_initial_step l : ∀ num ready pp,
  foldl initial_step (num, ready, pp) l
  = (num + Z.of_nat (length l),
     ready ++ map fst (filter (λ x, x.2 = 0) l),
     foldl (λ m x, <[x.1 := x.2]> m) pp l).
Proof.
  induction l as [|[n k] l IH]; intros num ready pp.
  - simpl. rewrite Z.add_0_r, app_nil_r. done.
  - rewrite filter_cons. cbn [foldl initial_step length snd fst].
    rewrite Nat2Z.inj_succ, <- Z.add_1_l, Z.add_assoc.
    case_decide; rewrite IH; cbn [map fst]; [|done].
    by rewrite <- app_assoc.
Qed.

Lemma foldl_insert_lookup (f : nat → Z) l : ∀ (pp : gmap nat Z) n,
  foldl (λ m x, <[x.1 := x.2]> m) pp (map (λ n, (n, f n)) l) !! n
  = if decide (n ∈ l) then Some (f n) else pp !! n.
Proof.
  induction l as [|a l IH]; intros pp n.
  - destruct (decide (n ∈ [])) as [H|H]; [by apply elem_of_nil in H|done].
  - cbn [map foldl]. rewrite IH. destruct (decide (n ∈ l)) as [Hin|Hin].
    + rewrite decide_True; [done|by right].
    + destruct (decide (a = n)) as [->|Hne].
      * rewrite decide_True; [|by left]. by rewrite lookup_insert_eq.
      * rewrite decide_False; [by rewrite lookup_insert_ne|].
        intros [->|?]%elem_of_cons; done.
Qed.

Lemma filter_map_in_degree (g : nx.MultiDiGraph) l :
  map fst (filter (λ x : nat * Z, x.2 = 0) (map (λ n, (n, nx.in_degree_of g n)) l))
  = filter (λ n, nx.in_degree_of g n = 0) l.
Proof.
  induction l as [|a l IH]; [done|]. simpl. rewrite !filter_cons. simpl.
  case_decide; simpl; by rewrite IH.
Qed.

Lemma initial_tasks_and_deps_eq d :
  let g := nx.node_link_graph d in
  _get_initial_tasks_and_deps d
  = (Z.of_nat (length (nx.nodes g)),
     filter (λ n, nx.in_degree_of g n = 0) (nx.nodes g),
     foldl (λ m x, <[x.1 := x.2]> m) ∅ (nx.in_degree g)).
Proof.
  intros g. unfold _get_initial_tasks_and_deps. fold g.
  rewrite foldl_initial_step. unfold nx.in_degree.
  rewrite length_map, filter_map_in_degree. done.
Qed.

(** C9: for every graph, [_get_initial_tasks_and_deps] returns the number of
    nodes, a map that sends every node (and nothing else) to its in-degree,
    and the list of the nodes of in-degree zero; on the graph with edges
    (0,1), (0,2), (1,3), (2,3) this is 4, [0] and {0:0, 1:1, 2:1, 3:2}. *)
Theorem initial_tasks_and_deps_correct (d : NodeLink) :
  let g := nx.node_link_graph d in
  let '(num_tasks, ready_nodes, pending_parents) := _get_initial_tasks_and_deps d in
  NoDup (nx.nodes g)
  ∧ num_tasks = Z.of_nat (length (nx.nodes g))
  ∧ (∀ n, n ∈ nx.nodes g →
          pending_parents !! n
          = Some (Z.of_nat (length (filter (λ e, target e = n) (nl_links d)))))
  ∧ (∀ n, n ∉ nx.nodes g → pending_parents !! n = None)
  ∧ (∀ n, n ∈ ready_nodes
          ↔ n ∈ nx.nodes g ∧ filter (λ e, target e = n) (nl_links d) = [])
  ∧ ready_nodes = filter (λ n, nx.in_degree_of g n = 0) (nx.nodes g)
  ∧ _get_initial_tasks_and_deps diamond
    = (4, [0%nat], {[0%nat := 0; 1%nat := 1; 2%nat := 1; 3%nat := 2]}).
Proof.
  intros g. rewrite initial_tasks_and_deps_eq. fold g.
  split; [apply node_link_graph_NoDup|]. split; [done|].
  unfold nx.in_degree. split_and!.
  - intros n Hn. rewrite foldl_insert_lookup, decide_True by done. done.
  - intros n Hn. rewrite foldl_insert_lookup, decide_False by done. done.
  - intros n. rewrite list_elem_of_filter. unfold nx.in_degree_of, nx.in_edges.
    simpl. split; intros [H1 H2]; split; try done.
    + apply length_zero_iff_nil. lia.
    + rewrite H2. done.
  - done.
  - apply (f_equal2 pair); [reflexivity|]. apply map_eq. intros i.
    destruct i as [|[|[|[|i]]]]; vm_compute; reflexivity.
Qed.

Lemma initial_tasks_and_deps_correct_witness :
  _get_initial_tasks_and_deps diamond
  = (4, [0%nat], {[0%nat := 0; 1%nat := 1; 2%nat := 1; 3%nat := 2]})
  ∧ length (nx.nodes (nx.node_link_graph diamond)) = 4%nat.
Proof.
  pose proof (initial_tasks_and_deps_correct diamond) as H.
  destruct (_get_initial_tasks_and_deps diamond) as [[n r] pp] eqn:E.
  destruct H as (_ & _ & _ & _ & _ & _ & Hex). split; [exact Hex|reflexivity].
Defined.

(** ** Abstract task inputs *)

Lemma insert_by_key_perm x l : insert_by_key x l ≡ₚ x :: l.
Proof.
  induction l as [|y l IH]; [done|]. simpl. case_decide; [done|].
  rewrite IH. apply Permutation_swap.
Qed.

Lemma sorted_perm l : sorted l ≡ₚ l.
Proof.
  induction l as [|x l IH]; [done|]. unfold sorted in *. simpl.
  rewrite insert_by_key_perm. by rewrite IH.
Qed.

Lemma insert_by_key_sorted x l :
  StronglySorted by_arg_index l → StronglySorted by_arg_index (insert_by_key x l).
Proof.
  induction 1 as [|y l Hs IH Hall]; simpl.
  - repeat constructor.
  - case_decide as Hle.
    + constructor; [by constructor|]. constructor; [done|].
      eapply Forall_impl; [exact Hall|]. unfold by_arg_index. intros; lia.
    + constructor; [done|]. rewrite insert_by_key_perm. constructor; [|done].
      unfold by_arg_index. lia.
Qed.

Lemma sorted_sorted l : StronglySorted by_arg_index (sorted l).
Proof.
  induction l as [|x l IH]; [constructor|]. by apply insert_by_key_sorted.
Qed.

Lemma foldl_abstract_input_step incoming : ∀ acc,
  foldl abstract_input_step acc incoming
  = (acc.1 ++ map (λ e, (source e, arg_index (attrs e))) (arg_edges incoming),
     foldl (λ m e, <[edge_name (attrs e) := source e]> m) acc.2
           (kwarg_edges incoming)).
Proof.
  unfold arg_edges, kwarg_edges, value_edges.
  induction incoming as [|e l IH]; intros [a m].
  - simpl. by rewrite app_nil_r.
  - cbn [foldl]. rewrite IH. unfold abstract_input_step.
    rewrite (filter_cons _ e l).
    destruct (decide (wait_for (attrs e) = false)) as [Hw|Hw].
    + rewrite Hw. cbn [negb]. rewrite !(filter_cons _ e).
      destruct (decide (param_type (attrs e) = Some "arg")) as [Ha|Ha].
      * rewrite decide_False by (rewrite Ha; discriminate).
        cbn [fst snd map]. by rewrite <- app_assoc.
      * destruct (decide (param_type (attrs e) = Some "kwarg")); done.
    + apply not_false_is_true in Hw. rewrite Hw. done.
Qed.

Lemma foldl_insert_last (l : list Edge) : ∀ (m : gmap string nat) k,
  foldl (λ m e, <[edge_name (attrs e) := source e]> m) m l !! k
  = match last (filter (λ e, edge_name (attrs e) = k) l) with
    | Some e => Some (source e)
    | None => m !! k
    end.
Proof.
  induction l as [|e l IH]; intros m k; [done|].
  cbn [foldl]. rewrite IH, filter_cons. case_decide as Hk.
  - rewrite last_cons. destruct (last _); [done|].
    by rewrite <- Hk, lookup_insert_eq.
  - destruct (last _); [done|]. by rewrite lookup_insert_ne.
Qed.

Lemma value_edges_idemp incoming :
  value_edges (value_edges incoming) = value_edges incoming.
Proof.
  unfold value_edges. induction incoming as [|e l IH]; [done|].
  rewrite filter_cons. case_decide; [|done].
  rewrite filter_cons, decide_True by done. by rewrite IH.
Qed.

(** C8: the positional inputs are the parents of the value-carrying "arg"
    edges in ascending [arg_index] (edge order among equal indices), the
    keyword inputs send each [edge_name] of a value-carrying "kwarg" edge to
    the parent of the last such edge, [wait_for] edges change neither, and
    every entry is the node id of a parent. *)
Theorem abstract_task_inputs_correct (incoming : list Edge) :
  let r := _get_abstract_task_inputs incoming in
  let positional :=
    map (λ e, (source e, arg_index (attrs e))) (arg_edges incoming) in
  (∃ l, l ≡ₚ positional ∧ StronglySorted by_arg_index l ∧ args r = map fst l)
  ∧ args r = map fst (sorted positional)
  ∧ args r ≡ₚ map source (arg_edges incoming)
  ∧ (∀ k, kwargs r !! k
          = (source <$> last (filter (λ e, edge_name (attrs e) = k)
                                     (kwarg_edges incoming))))
  ∧ (∀ k p, kwargs r !! k = Some p →
            ∃ e, e ∈ kwarg_edges incoming ∧ edge_name (attrs e) = k ∧ source e = p)
  ∧ (∀ e, e ∈ kwarg_edges incoming → is_Some (kwargs r !! edge_name (attrs e)))
  ∧ _get_abstract_task_inputs (value_edges incoming) = r
  ∧ (∀ e, e ∈ incoming → wait_for (attrs e) = true →
          (e ∉ arg_edges incoming) ∧ (e ∉ kwarg_edges incoming)).
Proof.
  intros r positional.
  assert (args r = map fst (sorted positional)) as Hargs.
  { unfold r, _get_abstract_task_inputs.
    rewrite foldl_abstract_input_step. done. }
  assert (∀ k, kwargs r !! k
          = (source <$> last (filter (λ e, edge_name (attrs e) = k)
                                     (kwarg_edges incoming)))) as Hkw.
  { intros k. unfold r, _get_abstract_task_inputs.
    rewrite foldl_abstract_input_step. cbn [kwargs snd].
    rewrite foldl_insert_last. by destruct (last _). }
  split_and!; try done.
  - exists (sorted positional). split_and!; [apply sorted_perm|apply sorted_sorted|done].
  - rewrite Hargs, sorted_perm. unfold positional. rewrite map_map.
    simpl. done.
  - intros k p. rewrite Hkw. destruct (last _) as [e|] eqn:He; [|done].
    intros [= <-]. exists e. apply last_Some_elem_of, list_elem_of_filter in He.
    destruct He as [Hname He]. done.
  - intros e He. rewrite Hkw.
    destruct (last _) as [e'|] eqn:Hl; [by eexists|].
    apply last_None in Hl.
    assert (e ∈ filter (λ e0, edge_name (attrs e0) = edge_name (attrs e))
                       (kwarg_edges incoming)) as Hin
      by (by apply list_elem_of_filter).
    rewrite Hl in Hin. by apply elem_of_nil in Hin.
  - unfold r, _get_abstract_task_inputs. rewrite !foldl_abstract_input_step.
    unfold arg_edges, kwarg_edges. by rewrite value_edges_idemp.
  - intros e _ Hw. unfold arg_edges, kwarg_edges, value_edges.
    rewrite !list_elem_of_filter. split; intros (_ & Hf & _); congruence.
Qed.

Lemma abstract_task_inputs_correct_witness :
  args (_get_abstract_task_inputs mixed_edges) = [4; 7]%nat
  ∧ kwargs (_get_abstract_task_inputs mixed_edges) !! "k" = Some 3%nat
  ∧ kwargs (_get_abstract_task_inputs mixed_edges) !! "w" = None.
Proof.
  destruct (abstract_task_inputs_correct mixed_edges)
    as (_ & Hargs & _ & Hkw & _).
  split_and!.
  - rewrite Hargs. reflexivity.
  - rewrite Hkw. reflexivity.
  - rewrite Hkw. reflexivity.
Defined.

(** ** Reasoning about the monad *)

Lemma bind_unfold {A B} (c : M A) (k : A → M B) w :
  (c ≫= k) w = match c w with
               | (Ok a, w') => k a w'
               | (Raise ex, w') => (Raise ex, w')
               | (Blocked, w') => (Blocked, w')
               end.
Proof. reflexivity. Qed.

Lemma frame_refl w : frame w w.
Proof. unfold frame. split_and!; try done. exists []. by rewrite app_nil_r. Qed.

Lemma frame_trans w1 w2 w3 : frame w1 w2 → frame w2 w3 → frame w1 w3.
Proof.
  intros (Q1 & L1 & N1 & T1 & δ1 & E1) (Q2 & L2 & N2 & T2 & δ2 & E2).
  unfold frame. split_and!; try congruence; [lia|].
  exists (δ1 ++ δ2). by rewrite E2, E1, app_assoc.
Qed.

Lemma framed_ret {A} (a : A) : framed (mret a).
Proof. intros w o w' [= <- <-]. apply frame_refl. Qed.

Lemma framed_raise {A} ex : framed (@raise A ex).
Proof. intros w o w' [= <- <-]. apply frame_refl. Qed.

Lemma framed_blocked {A} : framed (@blocked A).
Proof. intros w o w' [= <- <-]. apply frame_refl. Qed.

Lemma framed_lift {A} (o : Outcome A) : framed (lift o).
Proof. intros w o' w' [= <- <-]. apply frame_refl. Qed.

Lemma framed_bind {A B} (c : M A) (k : A → M B) :
  framed c → (∀ a, framed (k a)) → framed (c ≫= k).
Proof.
  intros Hc Hk w o w'. rewrite bind_unfold.
  destruct (c w) as [[a|ex|] w1] eqn:E; specialize (Hc _ _ _ E).
  - intros E2. eapply frame_trans; [done|]. by eapply Hk.
  - by intros [= <- <-].
  - by intros [= <- <-].
Qed.

Lemma framed_log e : framed (log e).
Proof.
  intros w o w' [= <- <-]. unfold frame. simpl. split_and!; try done. by eexists.
Qed.

Lemma framed_get_store : framed get_store.
Proof. intros w o w' [= <- <-]. apply frame_refl. Qed.

Lemma framed_now env : framed (now env).
Proof.
  intros w o w' [= <- <-]. unfold frame. simpl. split_and!; try done; [lia|].
  exists []. by rewrite app_nil_r.
Qed.

Create HintDb framed.
#[local] Hint Resolve framed_ret framed_raise framed_blocked framed_lift
  framed_log framed_get_store framed_now : framed.
#[local] Hint Extern 1 (framed (_ ≫= _)) => apply framed_bind; [|intros ?] : framed.

Lemma update_node_links pp r s s' :
  Result._update_node pp r s = Some s' →
  links s' = links s ∧ length (electrons s') = length (electrons s).
Proof.
  unfold Result._update_node. destruct (electrons s !! nr_node_id r); [|done].
  destruct (nr_end_time r), (decide (nr_status r = Some COMPLETED));
    try destruct (String.prefix _ _); intros [= <-]; simpl;
    by rewrite length_insert.
Qed.

Lemma framed_get_incoming_edges d n : framed (datasvc.get_incoming_edges d n).
Proof. unfold datasvc.get_incoming_edges. auto with framed. Qed.

Lemma framed_get_node_successors d n : framed (datasvc.get_node_successors d n).
Proof. unfold datasvc.get_node_successors. auto with framed. Qed.

Lemma framed_get_graph_nodes_links d : framed (datasvc.get_graph_nodes_links d).
Proof. unfold datasvc.get_graph_nodes_links. auto with framed. Qed.

Lemma framed_get_electron_attribute {A} d n (key : Electron → A) :
  framed (datasvc.get_electron_attribute d n key).
Proof.
  unfold datasvc.get_electron_attribute. apply framed_bind; [auto with framed|].
  intros s. destruct (electrons s !! n); auto with framed.
Qed.

Lemma framed_get_dispatch_status d : framed (datasvc.get_dispatch_status d).
Proof. unfold datasvc.get_dispatch_status. auto with framed. Qed.

Lemma framed_get_incomplete_tasks d : framed (datasvc.get_incomplete_tasks d).
Proof. unfold datasvc.get_incomplete_tasks. auto with framed. Qed.

Lemma framed_update_dispatch_result d r : framed (datasvc.update_dispatch_result d r).
Proof.
  intros w o w' [= <- <-]. unfold frame. simpl. split_and!; try done. by eexists.
Qed.

Lemma framed_update_node_result pp d r : framed (datasvc.update_node_result pp d r).
Proof.
  intros w o w'. unfold datasvc.update_node_result.
  rewrite bind_unfold. simpl.
  destruct (Result._update_node pp r (store w)) as [s'|] eqn:E.
  - apply update_node_links in E as [HL HN].
    intros [= <- <-]. unfold frame. simpl. split_and!; try done. by eexists.
  - intros [= <- <-]. apply frame_refl.
Qed.

Lemma framed_persist_result d : framed (datasvc.persist_result d).
Proof. apply framed_log. Qed.

Lemma framed_finalize_dispatch d : framed (datasvc.finalize_dispatch d).
Proof. apply framed_log. Qed.

#[local] Hint Resolve framed_get_incoming_edges framed_get_node_successors
  framed_get_graph_nodes_links framed_get_electron_attribute
  framed_get_dispatch_status framed_get_incomplete_tasks
  framed_update_dispatch_result framed_update_node_result
  framed_persist_result framed_finalize_dispatch : framed.

Lemma framed_run_abstract_task env b d n ex name inp :
  framed (run_abstract_task env b d n ex name inp).
Proof. unfold run_abstract_task. destruct (executor_error _ _); auto with framed. Qed.

Lemma framed_submit_task env d n : framed (_submit_task env d n).
Proof.
  unfold _submit_task. apply framed_bind; [auto with framed|]. intros name.
  destruct (String.prefix _ _); auto 10 using framed_run_abstract_task with framed.
Qed.

Lemma framed_submit_all env d nodes : ∀ u, framed (submit_all env d nodes u).
Proof.
  induction nodes as [|n nodes IH]; intros u; simpl; [auto with framed|].
  apply framed_bind; [apply framed_submit_task|]. intros _. apply IH.
Qed.

Lemma framed_handle_completed_node d n pp : framed (_handle_completed_node d n pp).
Proof. unfold _handle_completed_node. auto with framed. Qed.

Lemma framed_handle_event env d ev ls : framed (handle_event env d ev ls).
Proof.
  unfold handle_event, run_dispatch, _handle_failed_node, _handle_cancelled_node.
  destruct (decide (ev_status ev = RUNNING)); [auto with framed|].
  destruct (decide (ev_status ev = DISPATCHING)).
  { destruct (ev_detail ev !! _); auto with framed. }
  apply framed_bind.
  - destruct (decide (ev_status ev = COMPLETED)); [|auto with framed].
    apply framed_bind; [apply framed_handle_completed_node|].
    intros [ready pp]. apply framed_bind; [apply framed_submit_all|].
    auto with framed.
  - intros ls'. repeat case_decide; auto with framed.
Qed.

Lemma framed_event_loop env d events : ∀ ls, framed (event_loop env d events ls).
Proof.
  induction events as [|ev events IH]; intros ls; simpl;
    case_decide; auto with framed.
  apply framed_bind; [auto with framed|]. intros _.
  apply framed_bind; [apply framed_handle_event|]. apply IH.
Qed.

Lemma framed_finalize env d : framed (_finalize_dispatch env d).
Proof.
  unfold _finalize_dispatch. apply framed_bind; [auto with framed|].
  intros [failed cancelled]. apply framed_bind; [|auto with framed].
  case_decide; auto with framed.
Qed.

Lemma framed_run_event_loop env d events : framed (run_event_loop env d events).
Proof.
  unfold run_event_loop. apply framed_bind; [auto with framed|].
  intros t. apply framed_bind; [auto with framed|]. intros _.
  apply framed_bind; [auto with framed|]. intros g.
  destruct (_get_initial_tasks_and_deps g) as [[tl init] pp].
  apply framed_bind; [apply framed_submit_all|]. intros u.
  apply framed_event_loop.
Qed.

Lemma framed_run_planned_workflow env d events :
  framed (_run_planned_workflow env d events).
Proof.
  unfold _run_planned_workflow.
  apply framed_bind; [apply framed_run_event_loop|]. intros _.
  apply framed_finalize.
Qed.

Ltac run_monad :=
  cbv [mbind M_bind bind mret M_ret ret raise blocked lift log get_store put_store
       datasvc.get_incoming_edges datasvc.get_node_successors
       datasvc.get_graph_nodes_links datasvc.get_electron_attribute
       datasvc.update_node_result datasvc.update_dispatch_result
       datasvc.get_dispatch_status datasvc.get_incomplete_tasks
       datasvc.persist_result datasvc.finalize_dispatch
       datasvc.generate_dispatch_result now].

(** ** Redispatch of a completed dispatch *)

(** C6: when the stored status is COMPLETED, [run_workflow] returns
    COMPLETED at once; the only thing it does is the call of
    [finalize_dispatch]: the store, the clock and the queue registry are
    untouched and nothing else enters the trace. *)
Theorem run_workflow_completed (env : Env) (d : string) (events : list Event)
    (w : World) :
  d_status (store w) = COMPLETED →
  run_workflow env d events w
  = (Ok COMPLETED,
     {| store := store w; ticks := ticks w; _status_queues := _status_queues w;
        trace := trace w ++ [FinalizeDispatch d] |}).
Proof.
  intros H. unfold run_workflow. run_monad. rewrite H. reflexivity.
Qed.

Lemma run_workflow_completed_witness :
  run_workflow ticking_env "d" [] completed_world
  = (Ok COMPLETED,
     {| store := store completed_world; ticks := 0%nat; _status_queues := ∅;
        trace := [FinalizeDispatch "d"] |}).
Proof. apply (run_workflow_completed ticking_env "d" [] completed_world). reflexivity. Defined.

(** ** Parameter nodes *)

(** C5, as the code has it: for a node whose name has the parameter prefix,
    [_submit_task] returns after exactly one write of a node result and no
    other effect (no runner task); the result has status COMPLETED, the
    stored "value" as output, and as start and end time the two successive
    readings of the clock made by the call. *)
Theorem submit_parameter_node (env : Env) (d : string) (node_id : nat)
    (w : World) (e : Electron) :
  electrons (store w) !! node_id = Some e →
  String.prefix (parameter_prefix env) (e_name e) = true →
  let node_result :=
    parameter_result node_id (wall_clock env (ticks w))
      (wall_clock env (S (ticks w))) (e_value e) in
  ∃ w',
    _submit_task env d node_id w = (Ok tt, w')
    ∧ trace w' = trace w ++ [UpdateNodeResult d node_result]
    ∧ Result._update_node (postprocess_prefix env) node_result (store w)
      = Some (store w')
    ∧ ticks w' = S (S (ticks w))
    ∧ _status_queues w' = _status_queues w
    ∧ ∃ e', electrons (store w') !! node_id = Some e'
            ∧ e_status e' = COMPLETED
            ∧ e_start_time e' = Some (wall_clock env (ticks w))
            ∧ e_end_time e' = Some (wall_clock env (S (ticks w)))
            ∧ e_output e' = upd (e_value e) (e_output e).
Proof.
  intros He Hp node_result.
  assert (∃ s', Result._update_node (postprocess_prefix env) node_result (store w)
                = Some s'
          ∧ electrons s' = <[node_id := Result.set_node_values node_result e]>
                             (electrons (store w))) as (s' & Hs' & Hes).
  { unfold Result._update_node. simpl. rewrite He. simpl.
    destruct (String.prefix (postprocess_prefix env) (e_name e));
      eexists; split; try reflexivity; done. }
  eexists. split_and!.
  - unfold _submit_task. run_monad. rewrite He, Hp. simpl. rewrite He. simpl.
    fold node_result. unfold parameter_result in node_result.
    subst node_result. rewrite Hs'. reflexivity.
  - done.
  - done.
  - done.
  - done.
  - simpl. rewrite Hes. eexists. split.
    + apply list_lookup_insert_eq. by eapply lookup_lt_Some.
    + done.
Qed.

Lemma submit_parameter_node_witness :
  ∃ w', _submit_task ticking_env "d" 0 parameter_world = (Ok tt, w')
        ∧ trace w' = [UpdateNodeResult "d" (parameter_result 0 0 1 (Some "2"))].
Proof.
  destruct (submit_parameter_node ticking_env "d" 0 parameter_world
              (electron ":parameter:2" NEW_OBJECT (Some "2") "local"))
    as (w' & H1 & H2 & _); [reflexivity|reflexivity|].
  exists w'. split; [exact H1|exact H2].
Defined.

(** C5 as stated fails: with a clock that advances between the two readings
    the node result written has different start and end times. *)
Lemma submit_parameter_node_times_differ :
  let r := parameter_result 0 0 1 (Some "2") in
  (_submit_task ticking_env "d" 0 parameter_world).1 = Ok tt
  ∧ trace (_submit_task ticking_env "d" 0 parameter_world).2
    = [UpdateNodeResult "d" r]
  ∧ nr_start_time r ≠ nr_end_time r.
Proof.
  split_and!; [vm_compute; reflexivity|vm_compute; reflexivity|discriminate].
Qed.

(** ** The finalizer *)

Lemma elem_of_nodes_with_status st s i name :
  (i, name) ∈ Result.nodes_with_status st s
  ↔ ∃ e, electrons s !! i = Some e ∧ e_status e = st ∧ e_name e = name.
Proof.
  unfold Result.nodes_with_status. rewrite list_elem_of_omap. split.
  - intros (x & Hx & ->). apply elem_of_lookup_imap in Hx as (j & e & Hx & He).
    case_decide; [|done]. injection Hx as -> ->. eauto.
  - intros (e & He & Hst & Hn). exists (Some (i, name)). split; [|done].
    apply elem_of_lookup_imap. exists i, e. rewrite decide_True by done.
    by rewrite Hn.
Qed.

Lemma nodes_with_status_nonempty st s :
  Result.nodes_with_status st s ≠ [] ↔ has_status st s.
Proof.
  unfold has_status. split.
  - destruct (Result.nodes_with_status st s) as [|[i name] l] eqn:E; [done|].
    intros _. assert ((i, name) ∈ Result.nodes_with_status st s) as Hin
      by (rewrite E; left).
    apply elem_of_nodes_with_status in Hin as (e & ? & ? & ?). eauto.
  - intros (i & e & He & Hst) Hnil.
    assert ((i, e_name e) ∈ Result.nodes_with_status st s) as Hin
      by (apply elem_of_nodes_with_status; eauto).
    rewrite Hnil in Hin. by apply elem_of_nil in Hin.
Qed.

(** C1, as the code has it: when some node is FAILED or CANCELLED,
    [_finalize_dispatch] writes status FAILED if a node failed and CANCELLED
    otherwise, the clock reading as end time, and as error the header line
    followed by one "id: name" line for every FAILED node (cancelled nodes
    are not listed); what it returns is the status read back from the
    store. *)
Theorem finalize_dispatch_failed (env : Env) (d : string) (w : World) :
  has_status FAILED (store w) ∨ has_status CANCELLED (store w) →
  let failed := Result.nodes_with_status FAILED (store w) in
  ∃ st w',
    _finalize_dispatch env d w = (Ok st, w')
    ∧ st = d_status (store w')
    ∧ (has_status FAILED (store w) → st = FAILED)
    ∧ (¬ has_status FAILED (store w) → st = CANCELLED)
    ∧ d_end_time (store w') = Some (wall_clock env (ticks w))
    ∧ d_error (store w') = Some (failure_message failed)
    ∧ (∀ i name, (i, name) ∈ failed
         ↔ ∃ e, electrons (store w) !! i = Some e
                ∧ e_status e = FAILED ∧ e_name e = name)
    ∧ trace w'
      = trace w ++ [UpdateDispatchResult d
                      {| dr_start_time := None;
                         dr_end_time := Some (wall_clock env (ticks w));
                         dr_status := Some st;
                         dr_error := Some (failure_message failed);
                         dr_result := None |}].
Proof.
  intros Hsome failed.
  assert (failed ≠ [] ∨ Result.nodes_with_status CANCELLED (store w) ≠ []) as Hne.
  { unfold failed. rewrite !nodes_with_status_nonempty. exact Hsome. }
  unfold _finalize_dispatch. run_monad. unfold Result._get_incomplete_nodes.
  fold failed. rewrite (decide_True _ _ Hne).
  destruct (decide (failed ≠ [])) as [Hf|Hf]; simpl.
  - eexists _, _. split_and!; try reflexivity.
    + intros Hn. by apply nodes_with_status_nonempty in Hf.
    + intros i name. apply elem_of_nodes_with_status.
  - eexists _, _. split_and!; try reflexivity.
    + intros Hn. by apply nodes_with_status_nonempty in Hn.
    + intros i name. apply elem_of_nodes_with_status.
Qed.

Lemma finalize_dispatch_failed_witness :
  ∃ w', _finalize_dispatch ticking_env "d" failed_and_cancelled_world
        = (Ok FAILED, w')
        ∧ d_error (store w')
          = Some ("The following tasks failed:" +:+ newline +:+ "0: a").
Proof.
  destruct (finalize_dispatch_failed ticking_env "d" failed_and_cancelled_world)
    as (st & w' & Hrun & _ & Hst & _ & _ & Herr & _).
  - left. exists 0%nat, (electron "a" FAILED None "local"). split; reflexivity.
  - exists w'. split.
    + rewrite Hrun. f_equal. f_equal. apply Hst.
      exists 0%nat, (electron "a" FAILED None "local"). split; reflexivity.
    + rewrite Herr. reflexivity.
Defined.

(** C1 as stated fails: with node 0 FAILED and node 1 CANCELLED the error
    field names node 0 only, not every failed or cancelled node. *)
Lemma finalize_dispatch_omits_cancelled :
  let w := failed_and_cancelled_world in
  let w' := (_finalize_dispatch ticking_env "d" w).2 in
  let failed := Result.nodes_with_status FAILED (store w) in
  let cancelled := Result.nodes_with_status CANCELLED (store w) in
  cancelled = [(1%nat, "b")]
  ∧ d_error (store w') = Some ("The following tasks failed:" +:+ newline +:+ "0: a")
  ∧ d_error (store w') ≠ Some (failure_message (failed ++ cancelled)).
Proof.
  split_and!; [vm_compute; reflexivity|vm_compute; reflexivity|].
  vm_compute. discriminate.
Qed.

(** ** A dispatch without nodes *)

Lemma event_loop_done env d events ls w :
  ¬ unresolved_tasks ls > 0 → event_loop env d events ls w = (Ok ls, w).
Proof. intros H. destruct events; simpl; by rewrite decide_False. Qed.

(** C10: on a graph without nodes [_run_planned_workflow] writes status
    RUNNING with the start time, submits nothing, never reads the queue, and
    returns the status read back by [_finalize_dispatch], which is still
    RUNNING. *)
Theorem run_planned_workflow_empty (env : Env) (d : string)
    (events : list Event) (w : World) :
  electrons (store w) = [] →
  links (store w) = [] →
  ∃ w',
    _run_planned_workflow env d events w = (Ok RUNNING, w')
    ∧ d_status (store w') = RUNNING
    ∧ d_start_time (store w') = Some (wall_clock env (ticks w))
    ∧ d_end_time (store w') = d_end_time (store w)
    ∧ d_error (store w') = d_error (store w)
    ∧ trace w'
      = trace w ++ [UpdateDispatchResult d
                      {| dr_start_time := Some (wall_clock env (ticks w));
                         dr_end_time := None; dr_status := Some RUNNING;
                         dr_error := None; dr_result := None |}]
    ∧ submitted (trace w') = submitted (trace w)
    ∧ filter is_queue_get (trace w') = filter is_queue_get (trace w).
Proof.
  intros He Hl. eexists. split.
  - unfold _run_planned_workflow, run_event_loop, _finalize_dispatch.
    run_monad. simpl.
    unfold num_nodes. simpl. rewrite He, Hl. simpl.
    rewrite event_loop_done by (simpl; lia).
    unfold Result._get_incomplete_nodes, Result.nodes_with_status. simpl.
    rewrite He. simpl. reflexivity.
  - simpl. split_and!; try reflexivity.
    + unfold submitted. rewrite omap_app. simpl. by rewrite app_nil_r.
    + rewrite filter_app. simpl. by rewrite app_nil_r.
Qed.

Lemma run_planned_workflow_empty_witness :
  ∃ w', _run_planned_workflow ticking_env "d" [] empty_world = (Ok RUNNING, w')
        ∧ d_status (store w') = RUNNING.
Proof.
  destruct (run_planned_workflow_empty ticking_env "d" [] empty_world)
    as (w' & H1 & H2 & _); [reflexivity|reflexivity|].
  exists w'. split; [exact H1|exact H2].
Defined.

(** ** Exceptions and cleanup in [run_workflow] *)

Lemma queued_run env d events w o w1 :
  _run_planned_workflow env d events (queued d w) = (o, w1) →
  d ∈ _status_queues w1.
Proof.
  intros H. apply framed_run_planned_workflow in H as (Hq & _).
  rewrite Hq. simpl. apply elem_of_union. left. by apply elem_of_singleton.
Qed.

Lemma run_workflow_unfold env d events w :
  d_status (store w) ≠ COMPLETED →
  run_workflow env d events w
  = try_finally
      (try_except
         (_run_planned_workflow env d events)
         (λ ex,
            end_time ← now env;
            datasvc.update_dispatch_result d
              (datasvc.generate_dispatch_result d None (Some end_time)
                 (Some FAILED) (Some (format_exception env ex)) None);;
            mret FAILED))
      (datasvc.persist_result d;; datasvc.finalize_dispatch d;; pop_queue d)
      (queued d w).
Proof.
  intros H. unfold run_workflow. rewrite bind_unfold. simpl.
  rewrite decide_False by done. reflexivity.
Qed.

(** C7: when the stored status is not COMPLETED, an exception of the planned
    run is caught: the dispatch gets status FAILED, the formatted exception
    as error and an end time, and [run_workflow] returns FAILED; and
    whenever [run_workflow] returns, after a run that returned or that
    raised, [persist_result] and then [finalize_dispatch] were the last
    calls made. *)
Theorem run_workflow_cleanup (env : Env) (d : string) (events : list Event)
    (w : World) :
  d_status (store w) ≠ COMPLETED →
  (∀ ex w1,
     _run_planned_workflow env d events (queued d w) = (Raise ex, w1) →
     ∃ w',
       run_workflow env d events w = (Ok FAILED, w')
       ∧ d_status (store w') = FAILED
       ∧ d_error (store w') = Some (format_exception env ex)
       ∧ d_end_time (store w') = Some (wall_clock env (ticks w1))
       ∧ trace w'
         = trace w1 ++
           [UpdateDispatchResult d
              {| dr_start_time := None;
                 dr_end_time := Some (wall_clock env (ticks w1));
                 dr_status := Some FAILED;
                 dr_error := Some (format_exception env ex);
                 dr_result := None |};
            PersistResult d; FinalizeDispatch d])
  ∧ (∀ st w1,
       _run_planned_workflow env d events (queued d w) = (Ok st, w1) →
       ∃ w',
         run_workflow env d events w = (Ok st, w')
         ∧ store w' = store w1
         ∧ trace w' = trace w1 ++ [PersistResult d; FinalizeDispatch d])
  ∧ (∀ o w',
       run_workflow env d events w = (o, w') → o ≠ Blocked →
       (∃ st, o = Ok st)
       ∧ ∃ tr, trace w' = tr ++ [PersistResult d; FinalizeDispatch d]).
Proof.
  intros Hst.
  assert (∀ ex w1,
     _run_planned_workflow env d events (queued d w) = (Raise ex, w1) →
     ∃ w',
       run_workflow env d events w = (Ok FAILED, w')
       ∧ d_status (store w') = FAILED
       ∧ d_error (store w') = Some (format_exception env ex)
       ∧ d_end_time (store w') = Some (wall_clock env (ticks w1))
       ∧ trace w'
         = trace w1 ++
           [UpdateDispatchResult d
              {| dr_start_time := None;
                 dr_end_time := Some (wall_clock env (ticks w1));
                 dr_status := Some FAILED;
                 dr_error := Some (format_exception env ex);
                 dr_result := None |};
            PersistResult d; FinalizeDispatch d]) as Hraise.
  { intros ex w1 Hrun. pose proof (queued_run _ _ _ _ _ _ Hrun) as Hq.
    rewrite run_workflow_unfold by done.
    unfold try_finally, try_except. rewrite Hrun. run_monad. simpl.
    unfold pop_queue. simpl. rewrite decide_True by done.
    eexists. split; [reflexivity|]. simpl.
    split_and!; try reflexivity. by rewrite <- !app_assoc. }
  assert (∀ st w1,
       _run_planned_workflow env d events (queued d w) = (Ok st, w1) →
       ∃ w',
         run_workflow env d events w = (Ok st, w')
         ∧ store w' = store w1
         ∧ trace w' = trace w1 ++ [PersistResult d; FinalizeDispatch d]) as Hok.
  { intros st w1 Hrun. pose proof (queued_run _ _ _ _ _ _ Hrun) as Hq.
    rewrite run_workflow_unfold by done.
    unfold try_finally, try_except. rewrite Hrun. run_monad. simpl.
    unfold pop_queue. simpl. rewrite decide_True by done.
    eexists. split; [reflexivity|]. simpl.
    split; [reflexivity|]. by rewrite <- !app_assoc. }
  split; [exact Hraise|]. split; [exact Hok|].
  intros o w' Hrun Hnb.
  destruct (_run_planned_workflow env d events (queued d w))
    as [[st|ex|] w1] eqn:Hbody.
  - destruct (Hok _ _ eq_refl) as (w2 & Hrun2 & _ & Htr).
    rewrite Hrun in Hrun2. injection Hrun2 as -> ->. eauto.
  - destruct (Hraise _ _ eq_refl) as (w2 & Hrun2 & _ & _ & _ & Htr).
    rewrite Hrun in Hrun2. injection Hrun2 as -> ->.
    split; [eauto|]. eexists (_ ++ [_]). rewrite <- app_assoc. exact Htr.
  - rewrite run_workflow_unfold in Hrun by done.
    unfold try_finally, try_except in Hrun. rewrite Hbody in Hrun.
    injection Hrun as <- <-. done.
Qed.

Lemma run_workflow_cleanup_witness :
  ∃ w', run_workflow ticking_env "d" [] unknown_executor_world = (Ok FAILED, w')
        ∧ d_status (store w') = FAILED
        ∧ d_error (store w') = Some "ConfigError: unknown".
Proof.
  destruct (run_workflow_cleanup ticking_env "d" [] unknown_executor_world)
    as (Hraise & _); [discriminate|].
  destruct (Hraise (ConfigError "unknown")
              (_run_planned_workflow ticking_env "d" []
                 (queued "d" unknown_executor_world)).2)
    as (w' & H1 & H2 & H3 & _); [vm_compute; reflexivity|].
  exists w'. split_and!; [exact H1|exact H2|exact H3].
Defined.

(** ** Counting edges *)

Lemma occurrences_cons c x l :
  occurrences c (x :: l) = (if decide (x = c) then 1 else 0) + occurrences c l.
Proof.
  unfold occurrences. rewrite filter_cons. case_decide; simpl length; lia.
Qed.

Lemma occurrences_nonneg c l : 0 ≤ occurrences c l.
Proof. unfold occurrences. lia. Qed.

Lemma occurrences_pos c l : 0 < occurrences c l ↔ c ∈ l.
Proof.
  induction l as [|x l IH].
  - split; [unfold occurrences; simpl; lia|by intros ?%elem_of_nil].
  - rewrite occurrences_cons, elem_of_cons. pose proof (occurrences_nonneg c l).
    case_decide; subst; [split; [by left|lia]|].
    rewrite <- IH. split; [intros; right; lia|intros [?|?]; [done|lia]].
Qed.

Lemma occurrences_children ls p c :
  occurrences c (map target (filter (λ e, source e = p) ls)) = edges_between ls p c.
Proof.
  unfold edges_between. induction ls as [|e ls IH]; [done|].
  rewrite !filter_cons. destruct (decide (source e = p)) as [Hs|Hs].
  - cbn [map]. rewrite occurrences_cons, IH.
    destruct (decide (target e = c)) as [Ht|Ht].
    + rewrite decide_True by done. simpl length. lia.
    + rewrite decide_False by (intros [? ?]; done). lia.
  - rewrite decide_False by (intros [? ?]; done). done.
Qed.

Lemma edges_between_nonneg ls p c : 0 ≤ edges_between ls p c.
Proof. unfold edges_between. lia. Qed.

Lemma pending_of_snoc ls done p c :
  p ∉ done →
  pending_of ls (done ++ [p]) c = pending_of ls done c - edges_between ls p c.
Proof.
  intros Hp. unfold pending_of, edges_between.
  induction ls as [|e ls IH]; [done|]. rewrite !filter_cons.
  destruct (decide (target e = c)) as [Ht|Ht].
  - destruct (decide (source e = p)) as [Hs|Hs].
    + rewrite (decide_True (P := source e = p ∧ _)) by done.
      rewrite (decide_True (P := _ ∧ source e ∉ done)) by (by rewrite Hs).
      rewrite (decide_False (P := _ ∧ source e ∉ done ++ [p]))
        by (rewrite Hs; intros [_ []]; apply elem_of_app; right; left).
      simpl length. lia.
    + rewrite (decide_False (P := source e = p ∧ _)) by (by intros []).
      destruct (decide (source e ∈ done)) as [Hd|Hd].
      * rewrite (decide_False (P := _ ∧ source e ∉ done)) by (by intros []).
        rewrite (decide_False (P := _ ∧ source e ∉ done ++ [p])); [lia|].
        intros [_ []]. apply elem_of_app. by left.
      * rewrite (decide_True (P := _ ∧ source e ∉ done)) by done.
        rewrite (decide_True (P := _ ∧ source e ∉ done ++ [p])).
        { simpl length. lia. }
        split; [done|]. rewrite elem_of_app, list_elem_of_singleton. tauto.
  - rewrite !decide_False by (by intros []). done.
Qed.

Lemma edges_between_le_pending ls done p c :
  p ∉ done → edges_between ls p c ≤ pending_of ls done c.
Proof.
  intros Hp. pose proof (pending_of_snoc ls done p c Hp) as H.
  unfold pending_of in *. lia.
Qed.

Lemma pending_of_nonneg ls done c : 0 ≤ pending_of ls done c.
Proof. unfold pending_of. lia. Qed.

Lemma pending_of_nil ls c :
  pending_of ls [] c = Z.of_nat (length (filter (λ e, target e = c) ls)).
Proof.
  unfold pending_of. induction ls as [|e ls IH]; [done|]. rewrite !filter_cons.
  destruct (decide (target e = c)).
  - rewrite decide_True by (split; [done|apply not_elem_of_nil]).
    cbn [length]. rewrite !Nat2Z.inj_succ, IH. done.
  - rewrite decide_False by (by intros []). done.
Qed.

Lemma pending_of_zero ls done c :
  pending_of ls done c = 0 ↔ all_parents_in ls done c.
Proof.
  unfold pending_of, all_parents_in. split.
  - intros H e He Ht. destruct (decide (source e ∈ done)) as [|Hn]; [done|].
    assert (e ∈ filter (λ e, target e = c ∧ source e ∉ done) ls) as Hin
      by (by apply list_elem_of_filter).
    destruct (filter _ ls); [by apply elem_of_nil in Hin|simpl in H; lia].
  - intros H. destruct (filter _ ls) as [|e l] eqn:E; [done|].
    assert (e ∈ filter (λ e, target e = c ∧ source e ∉ done) ls) as Hin
      by (rewrite E; left).
    apply list_elem_of_filter in Hin as [[Ht Hs] He]. destruct Hs. eauto.
Qed.

(** ** The readiness tracker *)

Lemma handle_children_counts l : ∀ r pp r' pp',
  handle_children l r pp = Ok (r', pp') →
  ∀ n, pp' !! n = ((λ k, k - occurrences n l) <$> pp !! n).
Proof.
  induction l as [|c l IH]; intros r pp r' pp' H n.
  - injection H as <- <-. unfold occurrences. simpl.
    destruct (pp !! n); simpl; f_equal; lia.
  - simpl in H. destruct (pp !! c) as [k|] eqn:Hc; [|done].
    assert (pp' !! n = ((λ k, k - occurrences n l) <$> <[c:=k - 1]> pp !! n)) as ->.
    { case_decide; eapply IH; exact H. }
    rewrite occurrences_cons. destruct (decide (c = n)) as [->|Hne].
    + rewrite lookup_insert_eq, Hc. simpl. f_equal. lia.
    + rewrite lookup_insert_ne by done. destruct (pp !! n); simpl; f_equal; lia.
Qed.

Lemma handle_children_spec l : ∀ r pp,
  (∀ c, c ∈ l → ∃ k, pp !! c = Some k ∧ occurrences c l ≤ k) →
  ∃ r' pp',
    handle_children l r pp = Ok (r ++ r', pp')
    ∧ NoDup r'
    ∧ ∀ c, c ∈ r' ↔ c ∈ l ∧ pp !! c = Some (occurrences c l).
Proof.
  induction l as [|c l IH]; intros r pp Hpre.
  - exists [], pp. rewrite app_nil_r. split; [done|]. split; [constructor|].
    intros c. rewrite !elem_of_nil. tauto.
  - destruct (Hpre c) as (k & Hk & Hle); [by left|].
    rewrite occurrences_cons, decide_True in Hle by done.
    assert (∀ c', c' ∈ l →
              ∃ k', <[c:=k - 1]> pp !! c' = Some k' ∧ occurrences c' l ≤ k')
      as Hpre'.
    { intros c' Hc'. destruct (decide (c = c')) as [<-|Hne].
      - rewrite lookup_insert_eq. eexists. split; [done|lia].
      - rewrite lookup_insert_ne by done.
        destruct (Hpre c') as (k' & Hk' & Hle'); [by right|].
        rewrite occurrences_cons, decide_False in Hle' by done. eauto. }
    simpl. rewrite Hk. pose proof (occurrences_nonneg c l) as Hnn.
    destruct (decide (k - 1 < 1)) as [Hlt|Hge].
    + destruct (IH (r ++ [c]) _ Hpre') as (r' & pp' & Hrun & Hnd & Hin).
      assert (occurrences c l = 0) as Hz by lia.
      assert (c ∉ l) as Hnl by (rewrite <- occurrences_pos; lia).
      exists (c :: r'), pp'. rewrite Hrun, <- app_assoc. split; [done|]. split.
      * constructor; [|done]. rewrite Hin. tauto.
      * intros c'. rewrite !elem_of_cons, Hin, occurrences_cons.
        destruct (decide (c = c')) as [<-|Hne].
        -- rewrite Hk, Hz. split; [intros _; split; [by left|f_equal; lia]|].
           intros _. by left.
        -- rewrite lookup_insert_ne by done. rewrite Z.add_0_l.
           assert (c' ≠ c) by congruence. tauto.
    + destruct (IH r _ Hpre') as (r' & pp' & Hrun & Hnd & Hin).
      exists r', pp'. rewrite Hrun. split; [done|]. split; [done|].
      intros c'. rewrite Hin, elem_of_cons, occurrences_cons.
      destruct (decide (c = c')) as [<-|Hne].
      * rewrite lookup_insert_eq, Hk. split.
        -- intros [_ [= Heq]]. split; [by left|f_equal; lia].
        -- intros [_ [= Heq]]. split; [|f_equal; lia].
           apply occurrences_pos. lia.
      * rewrite lookup_insert_ne by done. rewrite Z.add_0_l.
        assert (c' ≠ c) by congruence. tauto.
Qed.

Lemma ready_nodes_spec (ls : list Edge) (nodes done : list nat) (p : nat)
    (pp : gmap nat Z) :
  p ∉ done →
  (∀ e, e ∈ ls → target e ∈ nodes) →
  (∀ n, n ∈ nodes → pp !! n = Some (pending_of ls done n)) →
  ∃ r' pp',
    handle_children (map target (filter (λ e, source e = p) ls)) [] pp
    = Ok (r', pp')
    ∧ NoDup r'
    ∧ (∀ n, n ∈ nodes → pp' !! n = Some (pending_of ls (done ++ [p]) n))
    ∧ ∀ c, c ∈ r' ↔ c ∈ nodes ∧ pending_of ls (done ++ [p]) c = 0
                     ∧ pending_of ls done c ≠ 0.
Proof.
  intros Hp Htgt Hpp. set (children := map target (filter (λ e, source e = p) ls)).
  assert (∀ c, c ∈ children → c ∈ nodes) as Hch.
  { intros c (e & -> & He)%list_elem_of_fmap.
    apply list_elem_of_filter in He as [_ He]. by apply Htgt. }
  destruct (handle_children_spec children [] pp) as (r' & pp' & Hrun & Hnd & Hin).
  { intros c Hc. exists (pending_of ls done c). split; [by apply Hpp, Hch|].
    unfold children. rewrite occurrences_children.
    by apply edges_between_le_pending. }
  exists r', pp'. split; [done|]. split; [done|]. split.
  - intros n Hn. rewrite (handle_children_counts _ _ _ _ _ Hrun n), (Hpp n Hn).
    simpl. unfold children. rewrite occurrences_children.
    by rewrite pending_of_snoc.
  - intros c. rewrite Hin. unfold children at 2. rewrite occurrences_children.
    rewrite <- occurrences_pos. unfold children. rewrite occurrences_children.
    rewrite pending_of_snoc by done.
    pose proof (edges_between_nonneg ls p c).
    pose proof (edges_between_le_pending ls done p c Hp). split.
    + intros [Hpos Heq]. assert (c ∈ nodes) as Hc.
      { apply Hch. unfold children.
        apply occurrences_pos. by rewrite occurrences_children. }
      rewrite (Hpp c Hc) in Heq. injection Heq as Heq. split; [done|lia].
    + intros (Hc & Hz & Hnz). split; [lia|]. rewrite (Hpp c Hc). f_equal. lia.
Qed.

(** ** Submission *)

Lemma submitted_app tr1 tr2 : submitted (tr1 ++ tr2) = submitted tr1 ++ submitted tr2.
Proof. apply omap_app. Qed.

Lemma submit_task_spec env d n w o w' :
  _submit_task env d n w = (o, w') →
  (o = Ok tt ∧ ∃ e, trace w' = trace w ++ [e] ∧ submitted_node e = Some n
                    ∧ is_queue_get e = false)
  ∨ (∃ ex, o = Raise ex ∧ trace w' = trace w).
Proof.
  unfold _submit_task, run_abstract_task. run_monad.
  destruct (electrons (store w) !! n) as [e|] eqn:He; simpl;
    [|intros [= <- <-]; right; eauto].
  destruct (String.prefix (parameter_prefix env) (e_name e)); simpl.
  - rewrite He. simpl.
    match goal with
    | |- context [Result._update_node ?a ?b ?c] =>
        destruct (Result._update_node a b c)
    end; intros [= <- <-]; [left|right; eauto].
    split; [done|]. eexists. split; [reflexivity|]. done.
  - rewrite He. simpl. rewrite He. simpl.
    destruct (executor_error env (e_executor e)); simpl;
      intros [= <- <-]; [right; eauto|left].
    split; [done|]. eexists. split; [reflexivity|]. done.
Qed.

Lemma submit_all_spec env d nodes : ∀ u w o w',
  submit_all env d nodes u w = (o, w') →
  ∃ done,
    done `prefix_of` nodes
    ∧ submitted (trace w') = submitted (trace w) ++ done
    ∧ match o with
      | Ok u' => done = nodes ∧ u' = u + Z.of_nat (length nodes)
      | Raise _ => True
      | Blocked => False
      end.
Proof.
  induction nodes as [|n nodes IH]; intros u w o w'.
  - intros [= <- <-]. exists []. rewrite app_nil_r. simpl.
    split; [done|]. split; [done|]. split; [done|lia].
  - cbn [submit_all]. rewrite bind_unfold.
    destruct (_submit_task env d n w) as [o1 w1] eqn:H1.
    apply submit_task_spec in H1
      as [(-> & e & Htr & He & _)|(ex & -> & Htr)].
    + intros H2. apply IH in H2 as (done & Hpre & Hsub & Ho).
      exists (n :: done). split; [by apply prefix_cons|]. split.
      * rewrite Hsub, Htr, submitted_app. simpl. rewrite He.
        by rewrite <- app_assoc.
      * destruct o; try done. destruct Ho as [-> ->].
        split; [done|]. cbn [length]. lia.
    + intros [= <- <-]. exists []. rewrite app_nil_r.
      split; [apply prefix_nil|]. by rewrite Htr.
Qed.

(** ** The invariant of the event loop *)

Lemma completed_nodes_snoc hist ev :
  completed_nodes (hist ++ [ev])
  = completed_nodes hist
    ++ (if decide (ev_status ev = COMPLETED) then [ev_node ev] else []).
Proof.
  unfold completed_nodes. rewrite filter_app, map_app. f_equal.
  rewrite filter_cons. by case_decide.
Qed.

Lemma resolved_snoc hist ev :
  resolved (hist ++ [ev])
  = resolved hist ++ (if decide (resolves ev) then [ev] else []).
Proof.
  unfold resolved. by rewrite filter_app.
Qed.

Lemma loop_inv_partial w0 hist subs ls w :
  loop_inv w0 hist subs ls w → partial_inv w0 hist subs w.
Proof.
  intros (Hfr & Htr & Hnd & Hsubs & _). unfold partial_inv.
  split_and!; try done. intros n Hn. by apply Hsubs.
Qed.

Lemma graph_of_targets s e : e ∈ links s → target e ∈ nx.nodes (graph_of s).
Proof.
  intros He. apply elem_of_node_link_graph. right. exists e. simpl. eauto.
Qed.

(** An entry that is not a completion leaves the tracker as it is. *)
Lemma loop_inv_no_completion w0 hist subs ls w ev ls' w' :
  loop_inv w0 hist subs ls w →
  ev_status ev ≠ COMPLETED →
  frame w w' →
  submitted (trace w') = submitted (trace w) →
  pending_parents ls' = pending_parents ls →
  tasks_left ls' = tasks_left ls →
  unresolved_tasks ls'
  = unresolved_tasks ls - (if decide (resolves ev) then 1 else 0) →
  0 ≤ unresolved_tasks ls' →
  loop_inv w0 (hist ++ [ev]) subs ls' w'.
Proof.
  intros (Hfr & Htr & Hnd & Hsubs & Hpp & Hun & Hnn & Htl) Hst Hfr' Htr' Hpp' Htl'
    Hun' Hnn'.
  unfold loop_inv. rewrite completed_nodes_snoc, resolved_snoc.
  rewrite decide_False by done. rewrite app_nil_r.
  split_and!; try done.
  - by eapply frame_trans.
  - congruence.
  - by rewrite Hpp'.
  - rewrite Hun', Hun, length_app. case_decide; simpl; lia.
  - congruence.
Qed.

Lemma handle_event_inv env d w0 hist subs ls w ev o w' :
  loop_inv w0 hist subs ls w →
  unresolved_tasks ls > 0 →
  NoDup (completed_nodes (hist ++ [ev])) →
  handle_event env d ev ls w = (o, w') →
  ∃ subs',
    subs `prefix_of` subs'
    ∧ match o with
      | Ok ls' => loop_inv w0 (hist ++ [ev]) subs' ls' w'
      | Raise _ => partial_inv w0 (hist ++ [ev]) subs' w'
      | Blocked => False
      end.
Proof.
  intros Hinv Hpos Hdup Hrun.
  pose proof (framed_handle_event _ _ _ _ _ _ _ Hrun) as Hfr'.
  unfold handle_event in Hrun.
  destruct (decide (ev_status ev = RUNNING)) as [Hr|Hr].
  { injection Hrun as <- <-. exists subs. split; [done|].
    eapply loop_inv_no_completion;
      [exact Hinv|congruence|exact Hfr'|done|done|done| |lia].
    rewrite decide_False by (intros [? ?]; done). lia. }
  destruct (decide (ev_status ev = DISPATCHING)) as [Hd|Hd].
  { exists subs. split; [done|].
    destruct (ev_detail ev !! "sub_dispatch_id") as [sub|].
    - unfold run_dispatch in Hrun. injection Hrun as <- <-.
      eapply loop_inv_no_completion;
        [exact Hinv|congruence|exact Hfr'| |done|done| |lia].
      + simpl. rewrite submitted_app. simpl. by rewrite app_nil_r.
      + rewrite decide_False by (intros [? ?]; done). lia.
    - injection Hrun as <- <-.
      apply loop_inv_partial in Hinv.
      destruct Hinv as (Hfr & Htr & Hnd & Hsubs). unfold partial_inv.
      rewrite completed_nodes_snoc, decide_False by congruence.
      rewrite app_nil_r. done. }
  destruct (decide (ev_status ev = COMPLETED)) as [Hc|Hc].
  - destruct Hinv as (Hfr & Htr & Hnd & Hsubs & Hpp & Hun & Hnn & Htl).
    rewrite completed_nodes_snoc, decide_True in Hdup by done.
    apply NoDup_app in Hdup as (_ & Hnotin & _).
    assert (ev_node ev ∉ completed_nodes hist) as Hp.
    { intros Hin. apply (Hnotin _ Hin). left. }
    destruct Hfr as (Hq & Hl & Hn & Ht & Hδ).
    destruct (ready_nodes_spec (links (store w0))
                (nx.nodes (graph_of (store w0))) (completed_nodes hist)
                (ev_node ev) (pending_parents ls) Hp)
      as (r' & pp' & Hh & Hndr & Hpp' & Hr').
    { intros e He. by apply graph_of_targets. }
    { done. }
    rewrite bind_unfold in Hrun. unfold _handle_completed_node in Hrun.
    rewrite (bind_unfold (_ ≫= _)) in Hrun.
    rewrite (bind_unfold (datasvc.get_node_successors _ _)) in Hrun.
    simpl in Hrun. rewrite Hl in Hrun. unfold lift in Hrun. rewrite Hh in Hrun.
    rewrite bind_unfold in Hrun.
    destruct (submit_all env d r' (unresolved_tasks ls - 1) w) as [o1 w1] eqn:Hsub.
    pose proof (framed_submit_all _ _ _ _ _ _ _ Hsub) as Hfr1.
    apply submit_all_spec in Hsub as (done & Hpre & Htr1 & Ho1).
    assert (NoDup (subs ++ done)
            ∧ ∀ n, n ∈ subs ++ done →
                   n ∈ nx.nodes (graph_of (store w0))
                   ∧ pending_of (links (store w0))
                       (completed_nodes hist ++ [ev_node ev]) n = 0) as [Hnd' Hin'].
    { destruct Hpre as [rest ->]. apply NoDup_app in Hndr as (Hndd & _ & _).
      split.
      - apply NoDup_app. split_and!; try done. intros n Hn1 Hn2.
        apply Hsubs in Hn1 as [_ Hz].
        assert (n ∈ done ++ rest) as Hn3 by (apply elem_of_app; by left).
        apply Hr' in Hn3 as (_ & _ & Hnz). done.
      - intros n [Hin|Hin]%elem_of_app.
        + apply Hsubs in Hin as [Hin Hz]. split; [done|].
          rewrite pending_of_snoc by done.
          pose proof (edges_between_nonneg (links (store w0)) (ev_node ev) n).
          pose proof (edges_between_le_pending (links (store w0)) _ _ n Hp).
          lia.
        + assert (n ∈ done ++ rest) as Hn3 by (apply elem_of_app; by left).
          apply Hr' in Hn3 as (? & ? & _). done. }
    exists (subs ++ done). split; [by apply prefix_app_r|].
    assert (frame w0 w1) as Hfr01.
    { eapply frame_trans; [|exact Hfr1]. unfold frame. done. }
    destruct o1 as [u'|ex|]; [|injection Hrun as <- <-|done].
    + destruct Ho1 as [-> ->]. rewrite Hc in Hrun. simpl in Hrun.
      injection Hrun as <- <-. unfold loop_inv.
      rewrite completed_nodes_snoc, resolved_snoc, decide_True by done.
      rewrite decide_True by (split; congruence).
      cbn [unresolved_tasks tasks_left pending_parents].
      split; [done|]. split; [rewrite Htr1, Htr; by rewrite app_assoc|].
      split; [done|]. split.
      { intros n. split; [apply Hin'|]. intros [Hnn' Hz].
        destruct (decide (pending_of (links (store w0)) (completed_nodes hist) n = 0))
          as [Hz0|Hnz].
        - apply elem_of_app. left. by apply Hsubs.
        - apply elem_of_app. right. by apply Hr'. }
      split; [done|]. rewrite !length_app. cbn [length].
      split_and!; lia.
    + unfold partial_inv. rewrite completed_nodes_snoc, decide_True by done.
      split_and!; try done. rewrite Htr1, Htr. by rewrite app_assoc.
  - exists subs. split; [done|]. rewrite bind_unfold in Hrun. simpl in Hrun.
    unfold _handle_failed_node, _handle_cancelled_node in Hrun.
    assert (o = Ok {| tasks_left := tasks_left ls;
                      unresolved_tasks := unresolved_tasks ls - 1;
                      pending_parents := pending_parents ls |} ∧ w' = w)
      as [-> ->].
    { repeat case_decide; by injection Hrun as <- <-. }
    eapply loop_inv_no_completion;
      [exact Hinv|done|apply frame_refl|done|done|done| |simpl; lia].
    simpl. rewrite decide_True by done. done.
Qed.

Lemma loop_inv_log w0 hist subs ls w e :
  submitted_node e = None →
  loop_inv w0 hist subs ls w → loop_inv w0 hist subs ls (log e w).2.
Proof.
  intros He (Hfr & Htr & Hrest). unfold loop_inv. split; [|split; [|exact Hrest]].
  - eapply frame_trans; [exact Hfr|]. by eapply framed_log.
  - simpl. rewrite submitted_app. simpl. rewrite He. by rewrite app_nil_r.
Qed.

Lemma completed_nodes_app l1 l2 :
  completed_nodes (l1 ++ l2) = completed_nodes l1 ++ completed_nodes l2.
Proof. unfold completed_nodes. by rewrite filter_app, map_app. Qed.

Lemma event_loop_inv env d w0 events : ∀ hist subs ls w o w',
  loop_inv w0 hist subs ls w →
  NoDup (completed_nodes (hist ++ events)) →
  event_loop env d events ls w = (o, w') →
  ∃ used rest subs',
    events = used ++ rest
    ∧ subs `prefix_of` subs'
    ∧ match o with
      | Ok ls' =>
          loop_inv w0 (hist ++ used) subs' ls' w' ∧ unresolved_tasks ls' = 0
      | Raise _ => partial_inv w0 (hist ++ used) subs' w'
      | Blocked =>
          rest = []
          ∧ ∃ ls', loop_inv w0 (hist ++ used) subs' ls' w'
                   ∧ unresolved_tasks ls' > 0
      end.
Proof.
  induction events as [|ev events IH]; intros hist subs ls w o w' Hinv Hdup Hrun.
  - exists [], [], subs. rewrite !app_nil_r. split; [done|]. split; [done|].
    simpl in Hrun. destruct (decide (unresolved_tasks ls > 0)) as [Hpos|Hz].
    + injection Hrun as <- <-. split; [done|]. exists ls. split; [|done].
      apply (loop_inv_log _ _ _ _ _ (QueueGet d) eq_refl Hinv).
    + injection Hrun as <- <-. split; [done|].
      destruct Hinv as (_ & _ & _ & _ & _ & _ & Hnn & _). lia.
  - cbn [event_loop] in Hrun.
    destruct (decide (unresolved_tasks ls > 0)) as [Hpos|Hz].
    + rewrite bind_unfold in Hrun. cbn [log] in Hrun. rewrite bind_unfold in Hrun.
      destruct (handle_event env d ev ls _) as [o1 w1] eqn:Hev.
      eapply handle_event_inv in Hev as (subs1 & Hpre1 & Ho1);
        [|apply (loop_inv_log _ _ _ _ _ (QueueGet d) eq_refl Hinv)|exact Hpos|].
      2:{ change (ev :: events) with ([ev] ++ events) in Hdup.
          rewrite completed_nodes_app in Hdup |- *.
          rewrite (completed_nodes_app [ev] events), app_assoc in Hdup.
          by apply NoDup_app in Hdup as [Hdup _]. }
      destruct o1 as [ls1|ex|]; [|injection Hrun as <- <-|done].
      * eapply IH in Hrun as (used & rest & subs' & -> & Hpre & Ho);
          [|exact Ho1|by rewrite <- app_assoc].
        exists (ev :: used), rest, subs'. split; [done|].
        split; [by etrans|]. rewrite <- app_assoc in Ho. exact Ho.
      * exists [ev], events, subs1. done.
    + injection Hrun as <- <-. exists [], (ev :: events), subs.
      rewrite !app_nil_r. split; [done|]. split; [done|]. split; [done|].
      destruct Hinv as (_ & _ & _ & _ & _ & _ & Hnn & _). lia.
Qed.

Lemma run_event_loop_inv env d events w o w' :
  NoDup (completed_nodes events) →
  run_event_loop env d events w = (o, w') →
  ∃ used rest subs,
    events = used ++ rest
    ∧ match o with
      | Ok ls' => loop_inv w used subs ls' w' ∧ unresolved_tasks ls' = 0
      | Raise _ => partial_inv w used subs w'
      | Blocked =>
          rest = []
          ∧ ∃ ls', loop_inv w used subs ls' w' ∧ unresolved_tasks ls' > 0
      end.
Proof.
  intros Hdup. unfold run_event_loop. rewrite bind_unfold. cbn [now].
  rewrite bind_unfold.
  destruct (datasvc.update_dispatch_result _ _ _) as [o1 w1] eqn:H1.
  assert (frame w w1 ∧ submitted (trace w1) = submitted (trace w) ∧ o1 = Ok tt)
    as (Hfr1 & Htr1 & ->).
  { injection H1 as <- <-. split; [|split; [|done]].
    - unfold frame. simpl. split_and!; try done; [lia|]. by eexists.
    - simpl. rewrite submitted_app. simpl. by rewrite app_nil_r. }
  clear H1. rewrite bind_unfold. unfold datasvc.get_graph_nodes_links.
  rewrite (bind_unfold get_store). cbn [get_store mret M_ret ret].
  destruct Hfr1 as (Hq1 & Hl1 & Hn1 & Ht1 & Hδ1).
  assert ({| nl_nodes := seq 0%nat (num_nodes (store w1));
             nl_links := links (store w1) |}
          = {| nl_nodes := seq 0%nat (num_nodes (store w));
               nl_links := links (store w) |}) as ->.
  { unfold num_nodes. by rewrite Hl1, Hn1. }
  rewrite initial_tasks_and_deps_eq. fold (graph_of (store w)).
  set (g := graph_of (store w)). rewrite bind_unfold.
  set (init := filter (λ n, nx.in_degree_of g n = 0) (nx.nodes g)).
  destruct (submit_all env d init 0 w1) as [o2 w2] eqn:H2.
  pose proof (framed_submit_all _ _ _ _ _ _ _ H2) as Hfr2.
  apply submit_all_spec in H2 as (done & Hpre & Htr2 & Ho2).
  assert (frame w w2) as Hfr.
  { eapply frame_trans; [|exact Hfr2]. unfold frame. done. }
  assert (∀ n, nx.in_degree_of g n = pending_of (links (store w)) [] n) as Hdeg.
  { intros n. by rewrite pending_of_nil. }
  assert (NoDup init) as Hndi.
  { apply NoDup_filter, node_link_graph_NoDup. }
  destruct o2 as [u|ex|]; [|intros [= <- <-]|done].
  - destruct Ho2 as [-> ->]. intros Hloop.
    assert (loop_inv w [] init
              {| tasks_left := Z.of_nat (length (nx.nodes g));
                 unresolved_tasks := 0 + Z.of_nat (length init);
                 pending_parents :=
                   foldl (λ (m : gmap nat Z) (x : nat * Z), <[x.1:=x.2]> m) ∅
                         (nx.in_degree g) |} w2) as Hinv.
    { unfold loop_inv. cbn [unresolved_tasks tasks_left pending_parents].
      split; [exact Hfr|]. split; [by rewrite Htr2, Htr1|].
      split; [done|]. split.
      { intros n. unfold init. rewrite list_elem_of_filter, Hdeg. tauto. }
      split.
      { intros n Hn. unfold nx.in_degree.
        rewrite foldl_insert_lookup, decide_True by done. by rewrite Hdeg. }
      simpl. split_and!; lia. }
    destruct (event_loop_inv _ _ _ _ _ _ _ _ _ _ Hinv Hdup Hloop)
      as (used & rest & subs' & -> & _ & Ho).
    exists used, rest, subs'. done.
  - exists [], events, done. split; [done|]. unfold partial_inv.
    split; [exact Hfr|]. split; [by rewrite Htr2, Htr1|].
    destruct Hpre as [rest' Hrest]. rewrite Hrest in Hndi.
    apply NoDup_app in Hndi as (Hndd & _ & _). split; [done|].
    intros n Hn. assert (n ∈ init) as Hni.
    { rewrite Hrest. apply elem_of_app. by left. }
    unfold init in Hni. apply list_elem_of_filter in Hni as [Hz Hng].
    split; [done|]. by rewrite <- Hdeg.
Qed.

(** ** Counting outstanding tasks *)

Lemma handle_event_count env d ev ls w ls' w' :
  handle_event env d ev ls w = (Ok ls', w') →
  ∃ newly,
    submitted (trace w') = submitted (trace w) ++ newly
    ∧ unresolved_tasks ls'
      = unresolved_tasks ls - (if decide (resolves ev) then 1 else 0)
        + Z.of_nat (length newly)
    ∧ (ev_status ev ≠ COMPLETED → newly = [] ∧ (resolves ev → w' = w)).
Proof.
  unfold handle_event. intros Hrun.
  destruct (decide (ev_status ev = RUNNING)) as [Hr|Hr].
  { injection Hrun as <- <-. exists []. rewrite app_nil_r.
    rewrite decide_False by (intros [? ?]; done). split; [done|].
    split; [simpl; lia|done]. }
  destruct (decide (ev_status ev = DISPATCHING)) as [Hd|Hd].
  { destruct (ev_detail ev !! "sub_dispatch_id"); [|done].
    unfold run_dispatch in Hrun. injection Hrun as <- <-. exists [].
    rewrite decide_False by (intros [? ?]; done). simpl.
    rewrite submitted_app. split; [done|]. split; [lia|]. intros Hc.
    split; [done|]. by intros [_ ?]. }
  rewrite decide_True by (by split).
  destruct (decide (ev_status ev = COMPLETED)) as [Hc|Hc].
  - rewrite bind_unfold in Hrun.
    rewrite (bind_unfold (_handle_completed_node _ _ _)) in Hrun.
    destruct (_handle_completed_node d (ev_node ev) (pending_parents ls) w)
      as [[[r pp]|ex|] w1] eqn:Hh; try done.
    assert (w1 = w) as ->.
    { unfold _handle_completed_node in Hh. rewrite bind_unfold in Hh.
      simpl in Hh. unfold lift in Hh. by injection Hh as _ <-. }
    rewrite bind_unfold in Hrun.
    destruct (submit_all env d r (unresolved_tasks ls - 1) w) as [o1 w1] eqn:Hs.
    apply submit_all_spec in Hs as (done & _ & Htr & Ho).
    destruct o1 as [u|ex|]; try done. destruct Ho as [-> ->].
    rewrite Hc in Hrun. simpl in Hrun. injection Hrun as <- <-.
    exists r. split; [done|]. split; [simpl; lia|done].
  - rewrite bind_unfold in Hrun. simpl in Hrun.
    unfold _handle_failed_node, _handle_cancelled_node in Hrun.
    assert (ls' = {| tasks_left := tasks_left ls;
                     unresolved_tasks := unresolved_tasks ls - 1;
                     pending_parents := pending_parents ls |} ∧ w' = w)
      as [-> ->].
    { repeat case_decide; by injection Hrun as <- <-. }
    exists []. rewrite app_nil_r. simpl. split; [done|]. split; [lia|done].
Qed.

Lemma event_loop_count env d events : ∀ ls w ls' w',
  0 ≤ unresolved_tasks ls →
  event_loop env d events ls w = (Ok ls', w') →
  ∃ used rest newly,
    events = used ++ rest
    ∧ submitted (trace w') = submitted (trace w) ++ newly
    ∧ unresolved_tasks ls' = 0
    ∧ Z.of_nat (length (resolved used))
      = unresolved_tasks ls + Z.of_nat (length newly)
    ∧ (used = [] → unresolved_tasks ls = 0)
    ∧ (∀ ev, last used = Some ev → resolves ev).
Proof.
  induction events as [|ev events IH]; intros ls w ls' w' Hnn Hrun.
  - simpl in Hrun. case_decide; [done|]. injection Hrun as <- <-.
    exists [], [], []. rewrite !app_nil_r. simpl. split_and!; try done; lia.
  - cbn [event_loop] in Hrun.
    destruct (decide (unresolved_tasks ls > 0)) as [Hpos|Hz].
    + rewrite bind_unfold in Hrun. cbn [log] in Hrun. rewrite bind_unfold in Hrun.
      destruct (handle_event env d ev ls _) as [[ls1|ex|] w1] eqn:Hev; try done.
      apply handle_event_count in Hev as (new1 & Htr1 & Hun1 & _).
      simpl in Htr1. rewrite submitted_app in Htr1. simpl in Htr1.
      rewrite app_nil_r in Htr1.
      apply IH in Hrun as (used & rest & new2 & -> & Htr2 & Hz & Hcount & He & Hl).
      2:{ rewrite Hun1. case_decide; lia. }
      exists (ev :: used), rest, (new1 ++ new2). split; [done|].
      split; [by rewrite Htr2, Htr1, app_assoc|]. split; [done|].
      unfold resolved in *. rewrite filter_cons, length_app. split_and!.
      * case_decide; cbn [length]; rewrite ?Nat2Z.inj_succ; lia.
      * done.
      * intros ev'. destruct used as [|ev2 used].
        -- intros [= <-]. specialize (He eq_refl).
           destruct (decide (resolves ev)); [done|lia].
        -- intros Hlast. apply Hl. by rewrite last_cons_cons in Hlast.
    + injection Hrun as <- <-. exists [], (ev :: events), [].
      rewrite !app_nil_r. simpl. split_and!; try done; lia.
Qed.

Lemma run_event_loop_count env d events w ls' w' :
  run_event_loop env d events w = (Ok ls', w') →
  ∃ used rest subs,
    events = used ++ rest
    ∧ submitted (trace w') = submitted (trace w) ++ subs
    ∧ unresolved_tasks ls' = 0
    ∧ length (resolved used) = length subs
    ∧ (∀ ev, last used = Some ev → resolves ev).
Proof.
  unfold run_event_loop. rewrite bind_unfold. cbn [now]. rewrite bind_unfold.
  destruct (datasvc.update_dispatch_result _ _ _) as [o1 w1] eqn:H1.
  assert (submitted (trace w1) = submitted (trace w) ∧ o1 = Ok tt) as (Htr1 & ->).
  { injection H1 as <- <-. split; [|done]. simpl. rewrite submitted_app.
    simpl. by rewrite app_nil_r. }
  clear H1. rewrite bind_unfold. unfold datasvc.get_graph_nodes_links.
  rewrite (bind_unfold get_store). cbn [get_store mret M_ret ret].
  destruct (_get_initial_tasks_and_deps _) as [[tl init] pp].
  rewrite bind_unfold.
  destruct (submit_all env d init 0 w1) as [[u|ex|] w2] eqn:H2; try done.
  apply submit_all_spec in H2 as (done & _ & Htr2 & -> & ->).
  intros Hloop. apply event_loop_count in Hloop
    as (used & rest & newly & -> & Htr3 & Hz & Hcount & _ & Hlast);
    [|simpl; lia].
  exists used, rest, (init ++ newly). split; [done|].
  split; [by rewrite Htr3, Htr2, Htr1, app_assoc|]. split; [done|].
  split; [|done]. simpl in Hcount. rewrite length_app. lia.
Qed.

Lemma submitted_since_app w w' subs :
  submitted (trace w') = submitted (trace w) ++ subs →
  submitted_since w w' = subs.
Proof. intros H. unfold submitted_since. rewrite H. apply drop_app_length. Qed.

(** ** The event loop and the outstanding count *)

(** C4: a RUNNING entry changes nothing; a DISPATCHING entry starts the
    child dispatch and leaves the count as it is; a COMPLETED, FAILED or
    CANCELLED entry takes one off the count and adds one for every node it
    makes ready, which is submitted; the loop leaves for the finalizer
    without reading the queue when the count is zero and reads the queue
    when it is positive; and when the loop has ended, the count is zero, as
    many resolving entries were read as nodes were submitted, the last
    entry read was a resolving one, and (if the runners post one resolving
    entry per submitted node) every submitted node has its resolving entry
    among those read, a DISPATCHING entry not being one. *)
Theorem outstanding_count (env : Env) (d : string) :
  (∀ ev ls w, ev_status ev = RUNNING → handle_event env d ev ls w = (Ok ls, w))
  ∧ (∀ ev ls w sub,
       ev_status ev = DISPATCHING →
       ev_detail ev !! "sub_dispatch_id" = Some sub →
       handle_event env d ev ls w
       = (Ok ls, {| store := store w; ticks := ticks w;
                    _status_queues := _status_queues w;
                    trace := trace w ++ [RunDispatch sub] |}))
  ∧ (∀ ev ls w ls' w',
       ev_status ev = COMPLETED ∨ ev_status ev = FAILED
       ∨ ev_status ev = CANCELLED →
       handle_event env d ev ls w = (Ok ls', w') →
       ∃ newly,
         submitted (trace w') = submitted (trace w) ++ newly
         ∧ unresolved_tasks ls'
           = unresolved_tasks ls - 1 + Z.of_nat (length newly)
         ∧ (ev_status ev ≠ COMPLETED → newly = [] ∧ w' = w))
  ∧ (∀ events ls w,
       unresolved_tasks ls = 0 → event_loop env d events ls w = (Ok ls, w))
  ∧ (∀ events ls w o w',
       unresolved_tasks ls > 0 →
       event_loop env d events ls w = (o, w') →
       ∃ δ, trace w' = trace w ++ QueueGet d :: δ)
  ∧ (∀ events w ls' w',
       run_event_loop env d events w = (Ok ls', w') →
       unresolved_tasks ls' = 0
       ∧ ∃ used rest,
           events = used ++ rest
           ∧ length (resolved used) = length (submitted_since w w')
           ∧ (∀ ev, last used = Some ev → resolves ev)
           ∧ (NoDup (map ev_node (resolved used)) →
              (∀ ev, ev ∈ resolved used → ev_node ev ∈ submitted_since w w') →
              ∀ n, n ∈ submitted_since w w' →
                   ∃ ev, ev ∈ used ∧ ev_node ev = n ∧ resolves ev)).
Proof.
  split_and!.
  - intros ev ls w Hr. unfold handle_event. by rewrite decide_True.
  - intros ev ls w sub Hd Hsub. unfold handle_event.
    rewrite decide_False by congruence. rewrite decide_True by done.
    rewrite Hsub. reflexivity.
  - intros ev ls w ls' w' Hst Hrun.
    apply handle_event_count in Hrun as (newly & Htr & Hun & Hnc).
    assert (resolves ev) as Hres
      by (destruct Hst as [H|[H|H]]; split; rewrite H; discriminate).
    rewrite decide_True in Hun by done. exists newly.
    split; [done|]. split; [done|]. intros Hc. destruct (Hnc Hc) as [-> Hw].
    split; [done|]. by apply Hw.
  - intros events ls w Hz. apply event_loop_done. lia.
  - intros events ls w o w' Hpos Hrun. destruct events as [|ev events].
    + simpl in Hrun. rewrite decide_True in Hrun by done.
      injection Hrun as <- <-. by exists [].
    + cbn [event_loop] in Hrun. rewrite decide_True in Hrun by done.
      rewrite bind_unfold in Hrun. cbn [log] in Hrun.
      match type of Hrun with
      | (?c ≫= ?k) ?w1 = _ =>
          assert (framed (c ≫= k)) as Hfr
      end.
      { apply framed_bind; [apply framed_handle_event|].
        intros ls1. apply framed_event_loop. }
      apply Hfr in Hrun as (_ & _ & _ & _ & δ & Hδ). simpl in Hδ.
      exists δ. rewrite Hδ. by rewrite <- app_assoc.
  - intros events w ls' w' Hrun.
    apply run_event_loop_count in Hrun
      as (used & rest & subs & -> & Htr & Hz & Hlen & Hlast).
    split; [done|]. exists used, rest.
    rewrite (submitted_since_app _ _ _ Htr).
    split; [done|]. split; [done|]. split; [done|].
    intros Hnd Hin n Hn.
    assert (map ev_node (resolved used) ≡ₚ subs) as Hperm.
    { apply submseteq_length_Permutation.
      - apply NoDup_submseteq; [done|].
        intros x (ev & -> & Hev)%list_elem_of_fmap. by apply Hin.
      - rewrite length_map. lia. }
    rewrite <- Hperm in Hn. apply list_elem_of_fmap in Hn as (ev & -> & Hev).
    apply list_elem_of_filter in Hev as [Hres Hev]. eauto.
Qed.

Lemma outstanding_count_witness :
  (run_event_loop ticking_env "d" [dispatching_event] single_world).1 = Blocked
  ∧ ∃ ls' w',
      run_event_loop ticking_env "d" [dispatching_event; event 0 COMPLETED]
        single_world = (Ok ls', w')
      ∧ unresolved_tasks ls' = 0
      ∧ trace w'
        = [UpdateDispatchResult "d"
             {| dr_start_time := Some 0; dr_end_time := None;
                dr_status := Some RUNNING; dr_error := None;
                dr_result := None |};
           CreateTask "d" 0 false ("local", "{}") "sub"
             {| args := []; kwargs := ∅ |};
           QueueGet "d"; RunDispatch "child"; QueueGet "d"].
Proof.
  split; [vm_compute; reflexivity|].
  destruct (run_event_loop ticking_env "d"
              [dispatching_event; event 0 COMPLETED] single_world)
    as [o w'] eqn:Hrun.
  assert (∃ ls', o = Ok ls') as [ls' ->].
  { apply (f_equal fst) in Hrun. vm_compute in Hrun. rewrite <- Hrun. eauto. }
  destruct (outstanding_count ticking_env "d") as (_ & _ & _ & _ & _ & Hend).
  destruct (Hend _ _ _ _ Hrun) as [Hz _].
  exists ls', w'. split; [done|]. split; [exact Hz|].
  apply (f_equal (λ r, trace r.2)) in Hrun. simpl in Hrun. rewrite <- Hrun.
  vm_compute. reflexivity.
Defined.

(** ** Every node is made ready and submitted at most once *)

Lemma handle_completed_node_counts d node_id pp w ready pp' w' :
  _handle_completed_node d node_id pp w = (Ok (ready, pp'), w') →
  w' = w
  ∧ ∀ c, pp' !! c
         = ((λ k, k - edges_between (links (store w)) node_id c) <$> pp !! c).
Proof.
  unfold _handle_completed_node. rewrite bind_unfold. simpl. unfold lift.
  intros [= Hh <-]. split; [done|]. intros c.
  rewrite (handle_children_counts _ _ _ _ _ Hh c).
  by rewrite occurrences_children.
Qed.

Lemma run_event_loop_submitted env d events w o w' :
  NoDup (completed_nodes events) →
  run_event_loop env d events w = (o, w') →
  ∃ used rest,
    events = used ++ rest
    ∧ partial_inv w used (submitted_since w w') w'.
Proof.
  intros Hdup Hrun.
  apply run_event_loop_inv in Hrun as (used & rest & subs & -> & Ho); [|done].
  exists used, rest. split; [done|].
  assert (partial_inv w used subs w') as Hp.
  { destruct o as [ls'|ex|].
    - destruct Ho as [Hinv _]. by eapply loop_inv_partial.
    - done.
    - destruct Ho as (_ & ls' & Hinv & _). by eapply loop_inv_partial. }
  destruct Hp as (Hfr & Htr & Hrest).
  rewrite (submitted_since_app _ _ _ Htr). unfold partial_inv. done.
Qed.

(** C3: a call of [_handle_completed_node] takes from the counter of every
    child exactly the number of edges that lead from the completed node to
    it (one for each edge, also for parallel edges) and never adds to a
    counter; when the counters track the edges from nodes not yet completed,
    the ready list it returns has no repetition and holds exactly the nodes
    whose count becomes zero with this completion; and in a run in which no
    node reports COMPLETED twice, no node is submitted twice, however the
    run ends. *)
Theorem ready_and_submitted_once (env : Env) (d : string) :
  (∀ node_id pp w ready pp' w',
     _handle_completed_node d node_id pp w = (Ok (ready, pp'), w') →
     w' = w
     ∧ (∀ c, pp' !! c
             = ((λ k, k - edges_between (links (store w)) node_id c) <$> pp !! c))
     ∧ (∀ c k k', pp !! c = Some k → pp' !! c = Some k' → k' ≤ k))
  ∧ (∀ node_id done pp w,
       node_id ∉ done →
       (∀ n, n ∈ nx.nodes (graph_of (store w)) →
             pp !! n = Some (pending_of (links (store w)) done n)) →
       ∃ ready pp',
         _handle_completed_node d node_id pp w = (Ok (ready, pp'), w)
         ∧ NoDup ready
         ∧ (∀ n, n ∈ nx.nodes (graph_of (store w)) →
                 pp' !! n
                 = Some (pending_of (links (store w)) (done ++ [node_id]) n))
         ∧ ∀ c, c ∈ ready ↔
                c ∈ nx.nodes (graph_of (store w))
                ∧ pending_of (links (store w)) (done ++ [node_id]) c = 0
                ∧ pending_of (links (store w)) done c ≠ 0)
  ∧ (∀ events w o w',
       NoDup (completed_nodes events) →
       run_event_loop env d events w = (o, w') →
       submitted (trace w') = submitted (trace w) ++ submitted_since w w'
       ∧ NoDup (submitted_since w w')).
Proof.
  split_and!.
  - intros node_id pp w ready pp' w' Hrun.
    apply handle_completed_node_counts in Hrun as [-> Hc].
    split; [done|]. split; [done|]. intros c k k' Hk. rewrite Hc, Hk. simpl.
    intros [= <-]. pose proof (edges_between_nonneg (links (store w)) node_id c).
    lia.
  - intros node_id done pp w Hp Hpp.
    destruct (ready_nodes_spec (links (store w)) (nx.nodes (graph_of (store w)))
                done node_id pp Hp) as (r' & pp' & Hh & Hrest).
    { intros e He. by apply graph_of_targets. }
    { done. }
    exists r', pp'. split; [|done].
    unfold _handle_completed_node. rewrite bind_unfold. simpl. unfold lift.
    by rewrite Hh.
  - intros events w o w' Hdup Hrun.
    apply run_event_loop_submitted in Hrun
      as (used & rest & _ & _ & Htr & Hnd & _); done.
Qed.

Lemma NoDup_decide (l : list nat) : bool_decide (NoDup l) = true → NoDup l.
Proof. intros H. by apply bool_decide_eq_true in H. Qed.

Lemma ready_and_submitted_once_witness :
  submitted
    (trace (run_event_loop ticking_env "d"
              [event 0 COMPLETED; event 1 COMPLETED] parallel_world).2)
  = [0; 1]%nat
  ∧ NoDup (submitted_since parallel_world
             (run_event_loop ticking_env "d"
                [event 0 COMPLETED; event 1 COMPLETED] parallel_world).2)
  ∧ ∃ ready pp',
      _handle_completed_node "d" 0 {[ 0%nat := 0; 1%nat := 2 ]} parallel_world
      = (Ok (ready, pp'), parallel_world)
      ∧ pp' !! 1%nat = Some 0.
Proof.
  destruct (ready_and_submitted_once ticking_env "d") as (Hcount & _ & Hrun).
  split; [vm_compute; reflexivity|]. split.
  - destruct (run_event_loop ticking_env "d"
                [event 0 COMPLETED; event 1 COMPLETED] parallel_world)
      as [o w'] eqn:E.
    exact (proj2 (Hrun [event 0 COMPLETED; event 1 COMPLETED] _ _ _
                    (NoDup_decide [0; 1]%nat eq_refl) E)).
  - destruct (_handle_completed_node "d" 0 {[ 0%nat := 0; 1%nat := 2 ]}
                parallel_world) as [o w'] eqn:E.
    assert (∃ r pp', o = Ok (r, pp')) as (r & pp' & ->).
    { apply (f_equal fst) in E. vm_compute in E. rewrite <- E. eauto. }
    destruct (Hcount _ _ _ _ _ _ E) as (-> & Hc & _).
    exists r, pp'. split; [done|]. rewrite Hc. reflexivity.
Defined.

(** ** Submitted nodes are the reachable ones *)

Lemma resolved_app l1 l2 : resolved (l1 ++ l2) = resolved l1 ++ resolved l2.
Proof. unfold resolved. apply filter_app. Qed.

Lemma completed_sublist_resolved events :
  completed_nodes events `sublist_of` map ev_node (resolved events).
Proof.
  unfold completed_nodes, resolved. induction events as [|ev events IH]; [done|].
  rewrite !filter_cons. destruct (decide (ev_status ev = COMPLETED)) as [Hc|Hc].
  - rewrite decide_True by (split; rewrite Hc; discriminate).
    simpl. by apply sublist_skip.
  - case_decide; simpl; [by apply sublist_cons|done].
Qed.

Lemma NoDup_map_inj {A B} (f : A → B) (l : list A) x y :
  NoDup (map f l) → x ∈ l → y ∈ l → f x = f y → x = y.
Proof.
  induction l as [|a l IH]; simpl; [by intros _ ?%elem_of_nil|].
  intros [Ha Hnd]%NoDup_cons [->|Hx]%elem_of_cons [->|Hy]%elem_of_cons Heq;
    [done| | |by apply IH].
  - destruct Ha. rewrite Heq. apply list_elem_of_fmap. eauto.
  - destruct Ha. rewrite <- Heq. apply list_elem_of_fmap. eauto.
Qed.

Lemma failed_not_completed events a :
  NoDup (map ev_node (resolved events)) →
  failed_or_cancelled events a → a ∉ completed_nodes events.
Proof.
  intros Hnd (ev & Hev & Hnode & Hst) Hin.
  apply list_elem_of_fmap in Hin as (ev2 & Hnode2 & Hev2).
  apply list_elem_of_filter in Hev2 as [Hc Hev2].
  assert (ev ∈ resolved events) as H1.
  { apply list_elem_of_filter. split; [|done].
    split; destruct Hst as [H|H]; rewrite H; discriminate. }
  assert (ev2 ∈ resolved events) as H2.
  { apply list_elem_of_filter. split; [|done]. split; rewrite Hc; discriminate. }
  assert (ev = ev2) as -> by (eapply NoDup_map_inj; [done..|congruence]).
  destruct Hst as [H|H]; rewrite H in Hc; discriminate.
Qed.

Lemma starved_by_ancestor ls (done subs : list nat) a n :
  (∀ m, m ∈ subs → all_parents_in ls done m) →
  (∀ m, m ∈ done → m ∈ subs) →
  ancestor ls a n → a ∉ done →
  ∃ e, e ∈ ls ∧ target e = n ∧ source e ∉ done.
Proof.
  intros Hsubs Hdone Hanc. induction Hanc as [e He|e n He Hanc IH]; intros Ha.
  - eauto.
  - apply IH. intros Ht. apply Hdone, Hsubs in Ht. destruct Ha. by apply Ht.
Qed.

Lemma submitted_reachable ls nodes (done subs : list nat) :
  acyclic ls →
  (∀ m, m ∈ subs ↔ m ∈ nodes ∧ all_parents_in ls done m) →
  (∀ m, m ∈ done → m ∈ subs) →
  ∀ n, n ∈ subs ↔ reachable ls nodes done n.
Proof.
  intros [rank Hrank] Hsubs Hdone n. split.
  - remember (rank n) as k eqn:Hk. revert n Hk.
    induction (lt_wf k) as [k _ IH]. intros n -> Hn.
    apply Hsubs in Hn as [Hn Hall]. constructor; [done|exact Hall|].
    intros e He Ht. eapply IH; [|reflexivity|].
    + rewrite <- Ht. by apply Hrank.
    + apply Hdone. by apply Hall.
  - intros [m Hm Hall _]. apply Hsubs. done.
Qed.

(** C2: in a run in which every node reports at most one resolving entry
    and only submitted nodes report COMPLETED, on an acyclic graph, and
    unless a submission raised: the submitted nodes are exactly the nodes
    reachable from the parentless ones by "all parents completed"; a node
    with an ancestor that reported FAILED or CANCELLED (or did not complete)
    is not submitted and, when the loop has ended, its counter is still
    positive; the loop ends with the count at zero and as many resolving
    entries read as nodes submitted; and it is still waiting only while
    fewer resolving entries than submissions have arrived. *)
Theorem submitted_are_reachable (env : Env) (d : string) (events : list Event)
    (w : World) (o : Outcome LoopState) (w' : World) :
  NoDup (map ev_node (resolved events)) →
  acyclic (links (store w)) →
  (∀ n, n ∈ completed_nodes events → n ∈ submitted_since w w') →
  run_event_loop env d events w = (o, w') →
  (∀ ex, o ≠ Raise ex) →
  let g := graph_of (store w) in
  let ls := links (store w) in
  let subs := submitted_since w w' in
  ∃ used rest,
    events = used ++ rest
    ∧ submitted (trace w') = submitted (trace w) ++ subs
    ∧ (∀ n, n ∈ subs ↔ reachable ls (nx.nodes g) (completed_nodes used) n)
    ∧ (∀ n, n ∈ subs ↔
            n ∈ nx.nodes g ∧ all_parents_in ls (completed_nodes used) n)
    ∧ (∀ a n, ancestor ls a n →
              failed_or_cancelled used a ∨ a ∉ completed_nodes used →
              n ∉ subs)
    ∧ match o with
      | Ok ls' =>
          unresolved_tasks ls' = 0
          ∧ length (resolved used) = length subs
          ∧ ∀ a n, ancestor ls a n →
                   failed_or_cancelled used a ∨ a ∉ completed_nodes used →
                   ∃ k, pending_parents ls' !! n = Some k ∧ 0 < k
      | Blocked =>
          rest = [] ∧ (length (resolved events) < length subs)%nat
      | Raise _ => True
      end.
Proof.
  intros Hnd Hacyc Hcs Hrun Hnr g ls subs.
  assert (NoDup (completed_nodes events)) as Hdup.
  { eapply sublist_NoDup; [exact Hnd|apply completed_sublist_resolved]. }
  apply run_event_loop_inv in Hrun as (used & rest & subs' & -> & Ho); [|done].
  assert (∃ ls', loop_inv w used subs' ls' w'
                 ∧ match o with
                   | Ok ls'' => ls'' = ls' ∧ unresolved_tasks ls' = 0
                   | Blocked => rest = [] ∧ unresolved_tasks ls' > 0
                   | Raise _ => False
                   end) as (ls' & Hinv & Hout).
  { destruct o as [ls'|ex|].
    - destruct Ho as [Hinv Hz]. by exists ls'.
    - by destruct (Hnr ex).
    - destruct Ho as (-> & ls' & Hinv & Hpos). by exists ls'. }
  destruct Hinv as (Hfr & Htr & Hnds & Hsubs & Hpp & Hun & Hnn & Htl).
  assert (subs = subs') as Heq by (by apply submitted_since_app).
  fold g ls in Hsubs, Hpp. rewrite <- Heq in Hsubs, Hun, Htr. clear Heq.
  assert (∀ n, n ∈ subs ↔
               n ∈ nx.nodes g ∧ all_parents_in ls (completed_nodes used) n)
    as Hall.
  { intros n. rewrite Hsubs. by rewrite pending_of_zero. }
  assert (∀ m, m ∈ completed_nodes used → m ∈ subs) as Hdone.
  { intros m Hm. apply Hcs. rewrite completed_nodes_app. apply elem_of_app.
    by left. }
  assert (NoDup (map ev_node (resolved used))) as Hndu.
  { rewrite resolved_app, map_app in Hnd. by apply NoDup_app in Hnd as [? _]. }
  assert (∀ a n, ancestor ls a n →
                 failed_or_cancelled used a ∨ a ∉ completed_nodes used →
                 ∃ e, e ∈ ls ∧ target e = n ∧ source e ∉ completed_nodes used)
    as Hstarved.
  { intros a n Hanc Ha.
    eapply (starved_by_ancestor ls _ subs); [|exact Hdone|exact Hanc|].
    - intros m Hm. by apply Hall.
    - destruct Ha as [Ha|Ha]; [by apply failed_not_completed|done]. }
  exists used, rest. split; [done|]. split; [done|]. split.
  { by apply submitted_reachable. }
  split; [done|]. split.
  { intros a n Hanc Ha Hn. destruct (Hstarved a n Hanc Ha) as (e & He & Ht & Hs).
    apply Hall in Hn as [_ Hn]. destruct Hs. by apply Hn. }
  destruct o as [ls''|ex|]; [|done|].
  - destruct Hout as [-> Hz]. split; [done|]. split; [lia|].
    intros a n Hanc Ha. destruct (Hstarved a n Hanc Ha) as (e & He & Ht & Hs).
    exists (pending_of ls (completed_nodes used) n). split.
    + apply Hpp. rewrite <- Ht. by apply graph_of_targets.
    + pose proof (pending_of_nonneg ls (completed_nodes used) n).
      assert (pending_of ls (completed_nodes used) n ≠ 0); [|lia].
      rewrite pending_of_zero. intros Hn. destruct Hs. by apply Hn.
  - destruct Hout as [-> Hpos]. split; [done|].
    rewrite app_nil_r. lia.
Qed.

Lemma submitted_are_reachable_witness :
  submitted (trace (run_event_loop ticking_env "d" [event 0 FAILED] chain_world).2)
  = [0%nat]
  ∧ ¬ (1%nat ∈ submitted_since chain_world
               (run_event_loop ticking_env "d" [event 0 FAILED] chain_world).2)
  ∧ ∃ ls' k,
      (run_event_loop ticking_env "d" [event 0 FAILED] chain_world).1 = Ok ls'
      ∧ unresolved_tasks ls' = 0
      ∧ pending_parents ls' !! 1%nat = Some k ∧ 0 < k.
Proof.
  split; [vm_compute; reflexivity|].
  destruct (run_event_loop ticking_env "d" [event 0 FAILED] chain_world)
    as [o w'] eqn:E.
  assert (∃ ls', o = Ok ls') as [ls' ->].
  { pose proof (f_equal fst E) as E1. vm_compute in E1. rewrite <- E1. eauto. }
  assert (ancestor (links (store chain_world)) 0 1) as Hanc.
  { apply (ancestor_parent _ (plain_edge 0 1)). left. }
  destruct (submitted_are_reachable ticking_env "d" [event 0 FAILED]
              chain_world (Ok ls') w'
              (NoDup_decide [0%nat] eq_refl))
    as (used & rest & Hev & _ & _ & _ & Hnot & Hz & _ & Hk).
  - exists (λ n, n). intros e [->|He]%elem_of_cons; [simpl; lia|].
    by apply elem_of_nil in He.
  - intros n Hn. vm_compute in Hn. by apply elem_of_nil in Hn.
  - exact E.
  - discriminate.
  - assert (0%nat ∉ completed_nodes used) as H0.
    { intros Hin.
      assert (0%nat ∈ completed_nodes (used ++ rest)) as Hin'
        by (rewrite completed_nodes_app; apply elem_of_app; by left).
      rewrite <- Hev in Hin'. vm_compute in Hin'. by apply elem_of_nil in Hin'. }
    split; [exact (Hnot _ _ Hanc (or_intror H0))|].
    destruct (Hk _ _ Hanc (or_intror H0)) as (k & Hk1 & Hk2).
    exists ls', k. done.
Defined.

(** ** Two runs on the diamond graph *)

(** All four nodes complete: each is submitted once, in dependency order. *)
Example diamond_run_completes :
  let r := run_event_loop ticking_env "d"
             [event 0 COMPLETED; event 1 RUNNING; event 1 COMPLETED;
              event 2 COMPLETED; event 3 COMPLETED] diamond_world in
  submitted (trace r.2) = [0; 1; 2; 3]%nat
  ∧ (unresolved_tasks <$> (match r.1 with Ok ls => Some ls | _ => None end))
    = Some 0.
Proof. split; vm_compute; reflexivity. Qed.

(** Node 1 fails: node 3 below it is never submitted, its counter stays at
    one, and the loop still ends once node 2 has reported. *)
Example diamond_run_with_failure :
  let r := run_event_loop ticking_env "d"
             [event 0 COMPLETED; event 1 FAILED; event 2 COMPLETED] diamond_world in
  submitted (trace r.2) = [0; 1; 2]%nat
  ∧ (match r.1 with
     | Ok ls => Some (unresolved_tasks ls, pending_parents ls !! 3%nat)
     | _ => None
     end) = Some (0, Some 1).
Proof. split; vm_compute; reflexivity. Qed.

(** * Further properties of the dispatcher *)

(** ** The finalizer without failures *)

(** X1: when no node is FAILED or CANCELLED, [_finalize_dispatch] writes
    nothing and reads no clock: the world is unchanged and the value is the
    stored status. *)
Theorem finalize_dispatch_clean (env : Env) (d : string) (w : World) :
  ¬ has_status FAILED (store w) →
  ¬ has_status CANCELLED (store w) →
  _finalize_dispatch env d w = (Ok (d_status (store w)), w).
Proof.
  intros Hf Hc. rewrite <- nodes_with_status_nonempty in Hf, Hc.
  unfold _finalize_dispatch. run_monad. unfold Result._get_incomplete_nodes.
  rewrite decide_False by tauto. reflexivity.
Qed.

Lemma finalize_dispatch_clean_witness :
  _finalize_dispatch ticking_env "d" chain_world = (Ok NEW_OBJECT, chain_world).
Proof.
  apply (finalize_dispatch_clean ticking_env "d" chain_world).
  - intros (i & e & He & Hst). destruct i as [|[|i]]; simpl in He;
      [injection He as <-; discriminate..|discriminate].
  - intros (i & e & He & Hst). destruct i as [|[|i]]; simpl in He;
      [injection He as <-; discriminate..|discriminate].
Defined.

(** ** Submission of a task to the runner *)

(** X2: for a node whose name does not have the parameter prefix and whose
    executor resolves, [_submit_task] creates exactly one runner task, with
    the node's executor and executor data, its name, and the abstract inputs
    read off its incoming edges; it writes nothing to the store and reads no
    clock. *)
Theorem submit_task_runner (env : Env) (d : string) (node_id : nat) (w : World)
    (e : Electron) :
  electrons (store w) !! node_id = Some e →
  String.prefix (parameter_prefix env) (e_name e) = false →
  executor_error env (e_executor e) = None →
  _submit_task env d node_id w
  = (Ok tt,
     {| store := store w; ticks := ticks w; _status_queues := _status_queues w;
        trace := trace w ++
          [CreateTask d node_id (NEW_RUNNER_ENABLED env)
             (e_executor e, e_executor_data e) (e_name e)
             (_get_abstract_task_inputs
                (filter (λ x, target x = node_id) (links (store w))))] |}).
Proof.
  intros He Hp Hx. unfold _submit_task, run_abstract_task. run_monad.
  rewrite He. simpl. rewrite Hp. rewrite He. simpl. rewrite He. simpl.
  rewrite Hx. reflexivity.
Qed.

Lemma submit_task_runner_witness :
  trace (_submit_task ticking_env "d" 1 chain_world).2
  = [CreateTask "d" 1 false ("local", "{}") "b" {| args := [0%nat]; kwargs := ∅ |}].
Proof.
  rewrite (submit_task_runner ticking_env "d" 1 chain_world
             (electron "b" NEW_OBJECT None "local"));
    [|reflexivity|reflexivity|reflexivity].
  vm_compute. reflexivity.
Defined.



(** ** The queue registry *)

Lemma run_workflow_queues env d events w o w' :
  run_workflow env d events w = (o, w') →
  (∀ ex, o ≠ Raise ex)
  ∧ (o ≠ Blocked →
     _status_queues w'
     = if decide (d_status (store w) = COMPLETED)
       then _status_queues w else _status_queues w ∖ {[d]})
  ∧ (o = Blocked → d ∈ _status_queues w').
Proof.
  destruct (decide (d_status (store w) = COMPLETED)) as [Hc|Hc].
  - unfold run_workflow. run_monad. rewrite Hc. simpl. intros [= <- <-].
    simpl. done.
  - rewrite run_workflow_unfold by done. unfold try_finally, try_except.
    destruct (_run_planned_workflow env d events (queued d w))
      as [[st|ex|] w1] eqn:Hbody.
    + pose proof (queued_run _ _ _ _ _ _ Hbody) as Hin.
      apply framed_run_planned_workflow in Hbody as (Hq & _).
      run_monad. simpl. unfold pop_queue. simpl. rewrite decide_True by done.
      intros [= <- <-]. simpl. split; [done|]. split; [|done].
      intros _. rewrite Hq. simpl. apply set_eq. intros x.
      rewrite !elem_of_difference, elem_of_union, elem_of_singleton. tauto.
    + pose proof (queued_run _ _ _ _ _ _ Hbody) as Hin.
      apply framed_run_planned_workflow in Hbody as (Hq & _).
      run_monad. simpl. unfold pop_queue. simpl. rewrite decide_True by done.
      intros [= <- <-]. simpl. split; [done|]. split; [|done].
      intros _. rewrite Hq. simpl. apply set_eq. intros x.
      rewrite !elem_of_difference, elem_of_union, elem_of_singleton. tauto.
    + pose proof (queued_run _ _ _ _ _ _ Hbody) as Hin.
      intros [= <- <-]. done.
Qed.



(** X5: a status posted for a dispatch is put on its queue exactly while
    the queue is registered: in the world that [_run_planned_workflow]
    leaves, however it ends (also suspended on the queue),
    [notify_node_status] hands over the entry and changes nothing, and once
    [run_workflow] has returned (the dispatch not having been registered
    before) it raises [KeyError]. *)
Theorem notify_needs_running_dispatch (env : Env) (d : string)
    (events : list Event) (w : World) (node_id : nat) (status : Status)
    (detail : gmap string string) :
  (∀ o w1,
     _run_planned_workflow env d events (queued d w) = (o, w1) →
     notify_node_status d node_id status detail w1
     = (Ok {| ev_node := node_id; ev_status := status; ev_detail := detail |}, w1))
  ∧ (∀ o w',
       d ∉ _status_queues w →
       run_workflow env d events w = (o, w') →
       o ≠ Blocked →
       notify_node_status d node_id status detail w' = (Raise (KeyError d), w')).
Proof.
  split.
  - intros o w1 Hrun. apply queued_run in Hrun.
    unfold notify_node_status. by rewrite decide_True.
  - intros o w' Hnot Hrun Hnb.
    destruct (run_workflow_queues _ _ _ _ _ _ Hrun) as (_ & Hq & _).
    specialize (Hq Hnb). unfold notify_node_status.
    rewrite decide_False; [done|]. rewrite Hq. case_decide; [done|].
    rewrite elem_of_difference. tauto.
Qed.

Lemma notify_needs_running_dispatch_witness :
  notify_node_status "d" 0 COMPLETED ∅
    (run_workflow ticking_env "d" [event 0 FAILED] chain_world).2
  = (Raise (KeyError "d"),
     (run_workflow ticking_env "d" [event 0 FAILED] chain_world).2).
Proof.
  destruct (run_workflow ticking_env "d" [event 0 FAILED] chain_world)
    as [o w'] eqn:E.
  destruct (notify_needs_running_dispatch ticking_env "d" [event 0 FAILED]
              chain_world 0 COMPLETED ∅) as [_ Hafter].
  apply (Hafter o w'); [apply not_elem_of_empty|exact E|].
  pose proof (f_equal fst E) as E1. vm_compute in E1. by rewrite <- E1.
Defined.

(** ** Entries that arrive after the loop has ended *)

Lemma event_loop_leftover env d events : ∀ ls w o w' extra,
  event_loop env d events ls w = (o, w') → o ≠ Blocked →
  event_loop env d (events ++ extra) ls w = (o, w').
Proof.
  induction events as [|ev events IH]; intros ls w o w' extra Hrun Hnb.
  - simpl in Hrun. destruct (decide (unresolved_tasks ls > 0)) as [Hpos|Hz].
    + injection Hrun as <- <-. done.
    + injection Hrun as <- <-. simpl. by apply event_loop_done.
  - cbn [event_loop app] in *.
    destruct (decide (unresolved_tasks ls > 0)) as [Hpos|Hz]; [|done].
    rewrite bind_unfold in Hrun |- *. cbn [log] in *.
    rewrite bind_unfold in Hrun |- *.
    destruct (handle_event env d ev ls _) as [[ls1|ex|] w1]; [|done|done].
    by apply IH.
Qed.

Lemma run_planned_workflow_leftover env d events w o w' extra :
  _run_planned_workflow env d events w = (o, w') → o ≠ Blocked →
  _run_planned_workflow env d (events ++ extra) w = (o, w').
Proof.
  unfold _run_planned_workflow, run_event_loop.
  rewrite !bind_unfold. cbn [now]. rewrite !bind_unfold.
  destruct (datasvc.update_dispatch_result _ _ _) as [[[]|ex|] w1]; try done.
  rewrite !bind_unfold.
  destruct (datasvc.get_graph_nodes_links d w1) as [[g|ex|] w2]; try done.
  destruct (_get_initial_tasks_and_deps g) as [[tl init] pp].
  rewrite !bind_unfold.
  destruct (submit_all env d init 0 w2) as [[u|ex|] w3]; try done.
  destruct (event_loop env d events _ w3) as [[ls|ex|] w4] eqn:Hloop.
  - intros Hrun Hnb. by rewrite (event_loop_leftover _ _ _ _ _ _ _ extra Hloop).
  - intros Hrun Hnb. by rewrite (event_loop_leftover _ _ _ _ _ _ _ extra Hloop).
  - by intros [= <- <-].
Qed.

(** X6: entries that are on the queue after the loop has ended are never
    read: when [run_workflow] returns on some entries, it returns the same
    status and leaves the same world on those entries followed by any
    others. *)
Theorem run_workflow_leftover (env : Env) (d : string) (events : list Event)
    (w : World) (o : Outcome Status) (w' : World) (extra : list Event) :
  run_workflow env d events w = (o, w') →
  o ≠ Blocked →
  run_workflow env d (events ++ extra) w = (o, w').
Proof.
  destruct (decide (d_status (store w) = COMPLETED)) as [Hc|Hc].
  - unfold run_workflow. run_monad. rewrite Hc. done.
  - rewrite !run_workflow_unfold by done. unfold try_finally, try_except.
    destruct (_run_planned_workflow env d events (queued d w))
      as [[st|ex|] w1] eqn:Hbody.
    + by rewrite (run_planned_workflow_leftover _ _ _ _ _ _ extra Hbody).
    + by rewrite (run_planned_workflow_leftover _ _ _ _ _ _ extra Hbody).
    + by intros [= <- <-].
Qed.

Lemma run_workflow_leftover_witness :
  run_workflow ticking_env "d" ([event 0 FAILED] ++ [event 1 COMPLETED]) chain_world
  = run_workflow ticking_env "d" [event 0 FAILED] chain_world.
Proof.
  destruct (run_workflow ticking_env "d" [event 0 FAILED] chain_world)
    as [o w'] eqn:E.
  apply (run_workflow_leftover _ _ _ _ _ _ [event 1 COMPLETED] E).
  pose proof (f_equal fst E) as E1. vm_compute in E1. by rewrite <- E1.
Defined.

(** ** Counters at or below one, and missing counters *)

Lemma handle_children_keeps_ready l : ∀ r pp r' pp',
  handle_children l r pp = Ok (r', pp') → ∀ x, x ∈ r → x ∈ r'.
Proof.
  induction l as [|c l IH]; intros r pp r' pp' H x Hx.
  - by injection H as <- <-.
  - simpl in H. destruct (pp !! c) as [k|]; [|done].
    case_decide; eapply IH; try exact H; [|done].
    apply elem_of_app. by left.
Qed.

Lemma handle_children_low l : ∀ r pp r' pp' c k,
  handle_children l r pp = Ok (r', pp') →
  c ∈ l → pp !! c = Some k → k ≤ 1 → c ∈ r'.
Proof.
  induction l as [|c0 l IH]; intros r pp r' pp' c k H Hc Hk Hle.
  - by apply elem_of_nil in Hc.
  - simpl in H. destruct (decide (c0 = c)) as [->|Hne].
    + rewrite Hk in H. rewrite decide_True in H by lia.
      eapply handle_children_keeps_ready; [exact H|].
      apply elem_of_app. right. left.
    + apply elem_of_cons in Hc as [->|Hc]; [done|].
      destruct (pp !! c0) as [k0|]; [|done].
      assert (<[c0:=k0 - 1]> pp !! c = Some k) as Hk'
        by (by rewrite lookup_insert_ne).
      case_decide; eapply IH; eauto.
Qed.

Lemma handle_children_missing l : ∀ r pp c,
  c ∈ l → pp !! c = None → ∃ c', handle_children l r pp = Raise (KeyError (str c')).
Proof.
  induction l as [|c0 l IH]; intros r pp c Hc Hnone.
  - by apply elem_of_nil in Hc.
  - simpl. destruct (pp !! c0) as [k0|] eqn:Hk0; [|eauto].
    apply elem_of_cons in Hc as [->|Hc]; [congruence|].
    assert (<[c0:=k0 - 1]> pp !! c = None) as Hnone'.
    { rewrite lookup_insert_ne; [done|]. intros ->. congruence. }
    case_decide; eapply IH; eauto.
Qed.

Lemma handle_children_total l : ∀ r (q : gmap nat Z),
  (∀ c, c ∈ l → is_Some (q !! c)) →
  ∃ r' q', handle_children l r q = Ok (r', q').
Proof.
  induction l as [|c l IH]; intros r q Hq; [by eexists _, _|]. simpl.
  destruct (Hq c) as [kc Hkc]; [by left|]. rewrite Hkc.
  assert (∀ c', c' ∈ l → is_Some (<[c:=kc - 1]> q !! c')) as Hq'.
  { intros c' Hc'. destruct (decide (c = c')) as [<-|Hne].
    - rewrite lookup_insert_eq. eauto.
    - rewrite lookup_insert_ne by done. apply Hq. by right. }
  case_decide; by apply IH.
Qed.

(** X7: [_handle_completed_node] returns a child as ready whenever the
    counter it finds for the child is at most one, also when the counter is
    already zero or negative: a second completion entry for the same node
    makes its children ready again.  The world stays as it is. *)
Theorem completed_node_low_counter (d : string) (node_id : nat)
    (pp : gmap nat Z) (w : World) (ready : list nat) (pp' : gmap nat Z)
    (w' : World) (e : Edge) (k : Z) :
  _handle_completed_node d node_id pp w = (Ok (ready, pp'), w') →
  e ∈ links (store w) → source e = node_id →
  pp !! target e = Some k → k ≤ 1 →
  target e ∈ ready ∧ w' = w
  ∧ ∃ ready2 pp2,
      _handle_completed_node d node_id pp' w = (Ok (ready2, pp2), w)
      ∧ target e ∈ ready2.
Proof.
  unfold _handle_completed_node. rewrite !bind_unfold. simpl. unfold lift.
  intros [= Hh <-] He Hs Hk Hle.
  set (children := map target (filter (λ e0, source e0 = node_id) (links (store w)))) in *.
  assert (target e ∈ children) as Hin.
  { apply list_elem_of_fmap. exists e. split; [done|].
    by apply list_elem_of_filter. }
  split; [by eapply handle_children_low|]. split; [done|].
  pose proof (handle_children_counts _ _ _ _ _ Hh) as Hcounts.
  destruct (handle_children_total children [] pp') as (r2 & pp2 & Hh2).
  { intros c Hc. rewrite Hcounts.
    destruct (pp !! c) as [kc|] eqn:Hpc; [by eexists|].
    destruct (handle_children_missing children [] pp c Hc Hpc) as [c' Hr].
    congruence. }
  exists r2, pp2. rewrite Hh2. split; [done|].
  eapply (handle_children_low _ _ _ _ _ (target e)); [exact Hh2|done| |].
  - rewrite Hcounts, Hk. reflexivity.
  - pose proof (occurrences_nonneg (target e) children). simpl. lia.
Qed.

Lemma completed_node_low_counter_witness :
  ∃ ready pp',
    _handle_completed_node "d" 0 {[ 0%nat := 0; 1%nat := 1 ]} chain_world
    = (Ok (ready, pp'), chain_world)
    ∧ 1%nat ∈ ready
    ∧ ∃ ready2 pp2,
        _handle_completed_node "d" 0 pp' chain_world = (Ok (ready2, pp2), chain_world)
        ∧ 1%nat ∈ ready2.
Proof.
  destruct (_handle_completed_node "d" 0 {[ 0%nat := 0; 1%nat := 1 ]} chain_world)
    as [o w'] eqn:E.
  assert (∃ r pp', o = Ok (r, pp')) as (r & pp' & ->).
  { pose proof (f_equal fst E) as E1. vm_compute in E1. rewrite <- E1. eauto. }
  destruct (completed_node_low_counter _ _ _ _ _ _ _ (plain_edge 0 1) 1 E)
    as (Hin & -> & Hagain); [by left|reflexivity|reflexivity|lia|].
  exists r, pp'. split; [done|]. split; [exact Hin|exact Hagain].
Defined.



(** ** Relations kept by the whole run *)

Lemma bind_assoc {A B C} (c : M A) (f : A → M B) (g : B → M C) w :
  ((c ≫= f) ≫= g) w = (c ≫= λ x, f x ≫= g) w.
Proof. rewrite !bind_unfold. by destruct (c w) as [[a|ex|] w1]. Qed.

Section Preserves.

Context (R : World → World → Prop).
Hypothesis R_refl : ∀ w, R w w.
Hypothesis R_trans : ∀ w1 w2 w3, R w1 w2 → R w2 w3 → R w1 w3.

Lemma preserves_ret {A} (a : A) : preserves R (mret a).
Proof. intros w o w' [= <- <-]. apply R_refl. Qed.

Lemma preserves_raise {A} ex : preserves R (@raise A ex).
Proof. intros w o w' [= <- <-]. apply R_refl. Qed.

Lemma preserves_blocked {A} : preserves R (@blocked A).
Proof. intros w o w' [= <- <-]. apply R_refl. Qed.

Lemma preserves_lift {A} (o : Outcome A) : preserves R (lift o).
Proof. intros w o' w' [= <- <-]. apply R_refl. Qed.

Lemma preserves_get_store : preserves R get_store.
Proof. intros w o w' [= <- <-]. apply R_refl. Qed.

Lemma preserves_bind {A B} (c : M A) (k : A → M B) :
  preserves R c → (∀ a, preserves R (k a)) → preserves R (c ≫= k).
Proof.
  intros Hc Hk w o w'. rewrite bind_unfold.
  destruct (c w) as [[a|ex|] w1] eqn:E; specialize (Hc _ _ _ E).
  - intros E2. eapply R_trans; [done|]. by eapply Hk.
  - by intros [= <- <-].
  - by intros [= <- <-].
Qed.

Lemma preserves_try_except {A} (body : M A) (handler : exn → M A) :
  preserves R body → (∀ ex, preserves R (handler ex)) →
  preserves R (try_except body handler).
Proof.
  intros Hb Hh w o w'. unfold try_except.
  destruct (body w) as [[a|ex|] w1] eqn:E; specialize (Hb _ _ _ E).
  - by intros [= <- <-].
  - intros E2. eapply R_trans; [done|]. by eapply Hh.
  - by intros [= <- <-].
Qed.

Lemma preserves_try_finally {A} (body : M A) (cleanup : M unit) :
  preserves R body → preserves R cleanup →
  preserves R (try_finally body cleanup).
Proof.
  intros Hb Hc w o w'. unfold try_finally.
  destruct (body w) as [[a|ex|] w1] eqn:E; specialize (Hb _ _ _ E).
  - destruct (cleanup w1) as [[[]|ex|] w2] eqn:E2; specialize (Hc _ _ _ E2);
      intros [= <- <-]; by eapply R_trans.
  - destruct (cleanup w1) as [[[]|ex'|] w2] eqn:E2; specialize (Hc _ _ _ E2);
      intros [= <- <-]; by eapply R_trans.
  - by intros [= <- <-].
Qed.

(** What the relation has to admit of the steps of the dispatcher. *)
Context (env : Env) (d : string).
Hypothesis R_submit : ∀ n, preserves R (_submit_task env d n).
Hypothesis R_log : ∀ e,
  is_node_write e = false → is_dispatch_write e = false → preserves R (log e).
Hypothesis R_stamped : ∀ f : datetime → DispatchResult,
  preserves R (now env ≫= λ t, datasvc.update_dispatch_result d (f t)).
Hypothesis R_add_queue : preserves R (add_queue d).
Hypothesis R_pop_queue : preserves R (pop_queue d).

Lemma preserves_read {A} (f : Store → A) : preserves R (s ← get_store; mret (f s)).
Proof. apply preserves_bind; [apply preserves_get_store|]. intros s. apply preserves_ret. Qed.

Lemma preserves_submit_all nodes : ∀ u, preserves R (submit_all env d nodes u).
Proof.
  induction nodes as [|n nodes IH]; intros u; simpl; [apply preserves_ret|].
  apply preserves_bind; [apply R_submit|]. intros _. apply IH.
Qed.

Lemma preserves_handle_event ev ls : preserves R (handle_event env d ev ls).
Proof.
  unfold handle_event, run_dispatch, _handle_failed_node, _handle_cancelled_node.
  destruct (decide (ev_status ev = RUNNING)); [apply preserves_ret|].
  destruct (decide (ev_status ev = DISPATCHING)).
  { destruct (ev_detail ev !! _); [|apply preserves_raise].
    apply preserves_bind; [by apply R_log|]. intros _. apply preserves_ret. }
  apply preserves_bind.
  - destruct (decide (ev_status ev = COMPLETED)); [|apply preserves_ret].
    apply preserves_bind.
    + unfold _handle_completed_node. apply preserves_bind.
      * apply (preserves_read (λ s, map target (filter _ (links s)))).
      * intros l. apply preserves_lift.
    + intros [ready pp]. apply preserves_bind; [apply preserves_submit_all|].
      intros u. apply preserves_ret.
  - intros ls'. repeat case_decide;
      repeat (apply preserves_bind; [|intros ?]); apply preserves_ret.
Qed.

Lemma preserves_event_loop events : ∀ ls, preserves R (event_loop env d events ls).
Proof.
  induction events as [|ev events IH]; intros ls; simpl;
    (case_decide; [|apply preserves_ret]);
    (apply preserves_bind; [by apply R_log|]); intros _.
  - apply preserves_blocked.
  - apply preserves_bind; [apply preserves_handle_event|]. apply IH.
Qed.

Lemma preserves_finalize : preserves R (_finalize_dispatch env d).
Proof.
  unfold _finalize_dispatch. apply preserves_bind.
  - apply (preserves_read Result._get_incomplete_nodes).
  - intros [failed cancelled]. apply preserves_bind.
    + case_decide; [|apply preserves_ret].
      apply (R_stamped (λ ts, datasvc.generate_dispatch_result d None (Some ts)
                                (Some _) (Some _) None)).
    + intros _. apply (preserves_read d_status).
Qed.

Lemma preserves_run_event_loop events : preserves R (run_event_loop env d events).
Proof.
  intros w o w' Hrun. unfold run_event_loop in Hrun.
  rewrite <- (bind_assoc (now env)
                (λ t, datasvc.update_dispatch_result d
                        (datasvc.generate_dispatch_result d (Some t) None
                           (Some RUNNING) None None))) in Hrun.
  revert Hrun. apply preserves_bind; [apply R_stamped|]. intros _.
  apply preserves_bind.
  - apply (preserves_read (λ s, {| nl_nodes := seq 0%nat (num_nodes s);
                                   nl_links := links s |})).
  - intros g. destruct (_get_initial_tasks_and_deps g) as [[tl init] pp].
    apply preserves_bind; [apply preserves_submit_all|]. intros u.
    apply preserves_event_loop.
Qed.

Lemma preserves_run_workflow events : preserves R (run_workflow env d events).
Proof.
  unfold run_workflow. apply preserves_bind; [apply (preserves_read d_status)|].
  intros st. case_decide.
  { apply preserves_bind; [by apply R_log|]. intros _. apply preserves_ret. }
  apply preserves_try_finally.
  - apply preserves_try_except.
    + unfold _plan_workflow, new_queue, _run_planned_workflow.
      apply preserves_bind; [apply preserves_ret|]. intros _.
      apply preserves_bind.
      { apply preserves_bind; [by apply R_log|]. intros _. apply R_add_queue. }
      intros _. apply preserves_bind; [apply preserves_run_event_loop|].
      intros _. apply preserves_finalize.
    + intros ex w o w' Hrun.
      rewrite <- (bind_assoc (now env)
                    (λ t, datasvc.update_dispatch_result d
                            (datasvc.generate_dispatch_result d None (Some t)
                               (Some FAILED) (Some (format_exception env ex))
                               None))) in Hrun.
      revert Hrun. apply preserves_bind; [apply R_stamped|]. intros _.
      apply preserves_ret.
  - apply preserves_bind; [by apply R_log|]. intros _.
    apply preserves_bind; [by apply R_log|]. intros _. apply R_pop_queue.
Qed.

End Preserves.

(** ** Bookkeeping of the completed count and of the clock *)

Lemma count_of_app f tr1 tr2 :
  count_of f (tr1 ++ tr2) = count_of f tr1 + count_of f tr2.
Proof. unfold count_of. rewrite filter_app, length_app. lia. Qed.

Lemma accounted_refl w : accounted w w.
Proof. exists []. rewrite app_nil_r. unfold count_of. simpl. split_and!; [done|lia..]. Qed.

Lemma accounted_trans w1 w2 w3 : accounted w1 w2 → accounted w2 w3 → accounted w1 w3.
Proof.
  intros (δ1 & E1 & C1 & T1) (δ2 & E2 & C2 & T2). exists (δ1 ++ δ2).
  rewrite !count_of_app. split_and!; [by rewrite E2, E1, app_assoc|lia..].
Qed.

Lemma update_node_completed_count pp r s s' :
  Result._update_node pp r s = Some s' →
  completed_electron_num s'
  = completed_electron_num s
    + (if decide (nr_status r = Some COMPLETED) then 1 else 0).
Proof.
  unfold Result._update_node. destruct (electrons s !! nr_node_id r); [|done].
  destruct (nr_end_time r), (decide (nr_status r = Some COMPLETED));
    try destruct (String.prefix _ _); intros [= <-]; simpl; lia.
Qed.

Lemma update_node_succeeds pp r s e :
  electrons s !! nr_node_id r = Some e → is_Some (Result._update_node pp r s).
Proof.
  intros He. unfold Result._update_node. rewrite He.
  destruct (nr_end_time r); [destruct (String.prefix pp (e_name e))|]; eauto.
Qed.

Lemma accounted_submit_task env d n : preserves accounted (_submit_task env d n).
Proof.
  intros w o w'. unfold _submit_task, run_abstract_task. run_monad.
  destruct (electrons (store w) !! n) as [e|] eqn:He; simpl;
    [|intros [= <- <-]; apply accounted_refl].
  destruct (String.prefix (parameter_prefix env) (e_name e)); simpl.
  - rewrite He. simpl.
    match goal with
    | |- context [Result._update_node ?a ?b ?c] =>
        destruct (update_node_succeeds a b c e He) as [s' Hs']; rewrite Hs'
    end; intros [= <- <-].
    apply update_node_completed_count in Hs'. simpl in Hs'.
    eexists. split; [reflexivity|]. unfold count_of. simpl. split; lia.
  - rewrite He. simpl. rewrite He. simpl.
    destruct (executor_error env (e_executor e)); simpl;
      intros [= <- <-]; [apply accounted_refl|].
    eexists. split; [reflexivity|]. unfold count_of. simpl. split; lia.
Qed.

Lemma accounted_log e :
  is_node_write e = false → is_dispatch_write e = false →
  preserves accounted (log e).
Proof.
  intros H1 H2 w o w' [= <- <-]. exists [e]. split; [done|].
  unfold count_of. rewrite !filter_cons, H1, H2. simpl. split; lia.
Qed.

Lemma accounted_stamped env d (f : datetime → DispatchResult) :
  preserves accounted (now env ≫= λ t, datasvc.update_dispatch_result d (f t)).
Proof.
  intros w o w' [= <- <-]. eexists. split; [reflexivity|].
  unfold count_of. simpl. split; lia.
Qed.

Lemma accounted_add_queue d : preserves accounted (add_queue d).
Proof.
  intros w o w' [= <- <-]. exists []. simpl. rewrite app_nil_r.
  unfold count_of. simpl. split_and!; [done|lia..].
Qed.

Lemma accounted_pop_queue d : preserves accounted (pop_queue d).
Proof.
  intros w o w'. unfold pop_queue. case_decide; intros [= <- <-];
    [|apply accounted_refl].
  exists []. simpl. rewrite app_nil_r. unfold count_of. simpl.
  split_and!; [done|lia..].
Qed.

(** X9: over a call of [run_workflow], however it ends, the trace only
    grows, the completed count of the dispatch grows by exactly the number
    of node results written (the parameter nodes submitted), and the clock
    is read exactly once for every dispatch result and twice for every node
    result written. *)
Theorem run_workflow_accounting (env : Env) (d : string) (events : list Event)
    (w : World) (o : Outcome Status) (w' : World) :
  run_workflow env d events w = (o, w') →
  ∃ δ, trace w' = trace w ++ δ
       ∧ completed_electron_num (store w')
         = completed_electron_num (store w) + count_of is_node_write δ
       ∧ Z.of_nat (ticks w')
         = Z.of_nat (ticks w) + count_of is_dispatch_write δ
           + 2 * count_of is_node_write δ.
Proof.
  apply (preserves_run_workflow accounted accounted_refl accounted_trans env d).
  - apply accounted_submit_task.
  - apply accounted_log.
  - apply accounted_stamped.
  - apply accounted_add_queue.
  - apply accounted_pop_queue.
Qed.

Lemma run_workflow_accounting_witness :
  ∃ δ, trace (run_workflow ticking_env "d" [] parameter_world).2
       = trace parameter_world ++ δ
       ∧ completed_electron_num
           (store (run_workflow ticking_env "d" [] parameter_world).2)
         = completed_electron_num (store parameter_world)
           + count_of is_node_write δ.
Proof.
  destruct (run_workflow ticking_env "d" [] parameter_world) as [o w'] eqn:E.
  destruct (run_workflow_accounting _ _ _ _ _ _ E) as (δ & H1 & H2 & _).
  exists δ. split; [exact H1|exact H2].
Defined.

(** ** The graph and the records of the nodes *)

Lemma store_kept_refl pfx w : store_kept pfx w w.
Proof. split_and!; try done. intros i e He. exists e. done. Qed.

Lemma store_kept_trans pfx w1 w2 w3 :
  store_kept pfx w1 w2 → store_kept pfx w2 w3 → store_kept pfx w1 w3.
Proof.
  intros (L1 & N1 & K1) (L2 & N2 & K2). split_and!; [congruence..|].
  intros i e He. destruct (K1 i e He) as (e1 & He1 & Hn1 & Hv1 & Hx1 & Hd1 & Hk1).
  destruct (K2 i e1 He1) as (e2 & He2 & Hn2 & Hv2 & Hx2 & Hd2 & Hk2).
  exists e2. split_and!; [done|congruence..|].
  intros Hp. rewrite <- (Hk1 Hp). apply Hk2. by rewrite Hn1.
Qed.

Lemma store_kept_same_store pfx w w' :
  store w' = store w → store_kept pfx w w'.
Proof.
  intros Hs. unfold store_kept, records_kept. rewrite Hs.
  split_and!; try done. intros i e He. exists e. done.
Qed.

Lemma store_kept_submit_task env d n :
  preserves (store_kept (parameter_prefix env)) (_submit_task env d n).
Proof.
  intros w o w'. unfold _submit_task, run_abstract_task. run_monad.
  destruct (electrons (store w) !! n) as [e|] eqn:He; simpl;
    [|intros [= <- <-]; apply store_kept_refl].
  destruct (String.prefix (parameter_prefix env) (e_name e)) eqn:Hp; simpl.
  - rewrite He. simpl.
    match goal with
    | |- context [Result._update_node ?a ?b ?c] =>
        destruct (update_node_succeeds a b c e He) as [s' Hs']; rewrite Hs'
    end; intros [= <- <-].
    pose proof (update_node_links _ _ _ _ Hs') as [HL HN].
    split; [done|]. split; [done|]. simpl.
    assert (electrons s'
            = <[n := Result.set_node_values
                       (parameter_result n (wall_clock env (ticks w))
                          (wall_clock env (S (ticks w))) (e_value e)) e]>
                (electrons (store w))) as Hes.
    { revert Hs'. unfold Result._update_node. simpl. rewrite He.
      destruct (String.prefix (postprocess_prefix env) (e_name e));
        by intros [= <-]. }
    intros i e0 He0. simpl. rewrite Hes.
    destruct (decide (i = n)) as [->|Hne].
    + rewrite He in He0. injection He0 as <-.
      rewrite list_lookup_insert_eq by (by eapply lookup_lt_Some).
      eexists. split; [reflexivity|]. simpl. split_and!; try done.
      intros Hp'. congruence.
    + rewrite list_lookup_insert_ne by done. exists e0. done.
  - rewrite He. simpl. rewrite He. simpl.
    destruct (executor_error env (e_executor e)); simpl;
      intros [= <- <-]; by apply store_kept_same_store.
Qed.

(** X10: [run_workflow], however it ends, never changes the edges or the
    number of nodes, never changes the name, the value or the executor of a
    node, and leaves the whole record of every node that is not a parameter
    node as it was. *)
Theorem run_workflow_keeps_graph (env : Env) (d : string) (events : list Event)
    (w : World) (o : Outcome Status) (w' : World) :
  run_workflow env d events w = (o, w') →
  links (store w') = links (store w)
  ∧ length (electrons (store w')) = length (electrons (store w))
  ∧ ∀ i e, electrons (store w) !! i = Some e →
           ∃ e', electrons (store w') !! i = Some e'
                 ∧ e_name e' = e_name e
                 ∧ e_value e' = e_value e
                 ∧ e_executor e' = e_executor e
                 ∧ e_executor_data e' = e_executor_data e
                 ∧ (String.prefix (parameter_prefix env) (e_name e) = false →
                    e' = e).
Proof.
  apply (preserves_run_workflow (store_kept (parameter_prefix env))
           (store_kept_refl _) (store_kept_trans _) env d).
  - apply store_kept_submit_task.
  - intros e _ _ w0 o0 w1 [= <- <-]. by apply store_kept_same_store.
  - intros f w0 o0 w1 [= <- <-]. split_and!; try done.
    intros i e He. exists e. done.
  - intros w0 o0 w1 [= <- <-]. by apply store_kept_same_store.
  - intros w0 o0 w1. unfold pop_queue. case_decide; intros [= <- <-];
      by apply store_kept_same_store.
Qed.

Lemma run_workflow_keeps_graph_witness :
  electrons (store (run_workflow ticking_env "d" [event 0 COMPLETED; event 1 FAILED]
                      chain_world).2)
  = electrons (store chain_world).
Proof.
  destruct (run_workflow ticking_env "d" [event 0 COMPLETED; event 1 FAILED]
              chain_world) as [o w'] eqn:E.
  destruct (run_workflow_keeps_graph _ _ _ _ _ _ E) as (_ & Hlen & Hrec).
  cbn [snd]. apply list_eq. intros i. destruct (electrons (store chain_world) !! i) as [e|] eqn:He.
  - destruct (Hrec i e He) as (e' & He' & _ & _ & _ & _ & Hsame).
    rewrite He'. f_equal. apply Hsame.
    destruct i as [|[|i]]; simpl in He; [injection He as <-..|done]; reflexivity.
  - apply lookup_ge_None in He. apply lookup_ge_None. simpl in *. lia.
Defined.

(** * Properties of the store writes *)

(** X11: [_update_dispatch] leaves a field as it is when the update does not
    give it, so it can set but never clear a field; an update without fields
    changes nothing; an update applied twice is the update applied once; two
    updates in a row are one update in which the later fields win; and the
    nodes, the edges and the completed count are never touched. *)
Theorem update_dispatch_laws (r1 r2 : DispatchResult) (s : Store) :
  Result._update_dispatch r2 (Result._update_dispatch r1 s)
  = Result._update_dispatch (later_wins r1 r2) s
  ∧ Result._update_dispatch r1 (Result._update_dispatch r1 s)
    = Result._update_dispatch r1 s
  ∧ Result._update_dispatch
      {| dr_start_time := None; dr_end_time := None; dr_status := None;
         dr_error := None; dr_result := None |} s = s
  ∧ (is_Some (d_start_time s) → is_Some (d_start_time (Result._update_dispatch r1 s)))
  ∧ (is_Some (d_end_time s) → is_Some (d_end_time (Result._update_dispatch r1 s)))
  ∧ (is_Some (d_error s) → is_Some (d_error (Result._update_dispatch r1 s)))
  ∧ (is_Some (d_result s) → is_Some (d_result (Result._update_dispatch r1 s)))
  ∧ electrons (Result._update_dispatch r1 s) = electrons s
  ∧ links (Result._update_dispatch r1 s) = links s
  ∧ completed_electron_num (Result._update_dispatch r1 s)
    = completed_electron_num s.
Proof.
  destruct r1 as [a1 b1 c1 e1 f1], r2 as [a2 b2 c2 e2 f2], s. split_and!.
  - unfold Result._update_dispatch, later_wins. simpl.
    destruct a1, a2, b1, b2, c1, c2, e1, e2, f1, f2; reflexivity.
  - unfold Result._update_dispatch. simpl.
    destruct a1, b1, c1, e1, f1; reflexivity.
  - reflexivity.
  - simpl. intros [x ->]. destruct a1; simpl; eauto.
  - simpl. intros [x ->]. destruct b1; simpl; eauto.
  - simpl. intros [x ->]. destruct e1; simpl; eauto.
  - simpl. intros [x ->]. destruct f1; simpl; eauto.
  - reflexivity.
  - reflexivity.
  - reflexivity.
Qed.

Lemma update_dispatch_laws_witness :
  d_error
    (Result._update_dispatch
       {| dr_start_time := None; dr_end_time := Some 7; dr_status := Some COMPLETED;
          dr_error := None; dr_result := None |}
       (Result._update_dispatch
          {| dr_start_time := None; dr_end_time := Some 3; dr_status := Some FAILED;
             dr_error := Some "boom"; dr_result := None |}
          (store chain_world)))
  = Some "boom".
Proof.
  destruct (update_dispatch_laws
              {| dr_start_time := None; dr_end_time := Some 3; dr_status := Some FAILED;
                 dr_error := Some "boom"; dr_result := None |}
              {| dr_start_time := None; dr_end_time := Some 7;
                 dr_status := Some COMPLETED; dr_error := None; dr_result := None |}
              (store chain_world)) as (Hcomp & _).
  rewrite Hcomp. reflexivity.
Defined.

(** X12: [_update_node] fails exactly when the node id is not below the
    number of nodes; when it succeeds it keeps the edges and the number of
    nodes, changes no other node, writes into the node the fields the update
    gives and keeps the others, and adds one to the completed count exactly
    when the update gives status COMPLETED (also when the node was COMPLETED
    before). *)
Theorem update_node_frame (pp : string) (r : NodeResult) (s : Store) :
  (Result._update_node pp r s = None ↔ (length (electrons s) ≤ nr_node_id r)%nat)
  ∧ ∀ s', Result._update_node pp r s = Some s' →
      links s' = links s
      ∧ length (electrons s') = length (electrons s)
      ∧ (∀ j, j ≠ nr_node_id r → electrons s' !! j = electrons s !! j)
      ∧ (∃ e, electrons s !! nr_node_id r = Some e
              ∧ electrons s' !! nr_node_id r = Some (Result.set_node_values r e))
      ∧ completed_electron_num s'
        = completed_electron_num s
          + (if decide (nr_status r = Some COMPLETED) then 1 else 0).
Proof.
  split.
  - rewrite <- lookup_ge_None. split.
    + intros Hn. destruct (electrons s !! nr_node_id r) as [e|] eqn:He; [|done].
      destruct (update_node_succeeds pp r s e He) as [s' Hs']. congruence.
    + intros Hn. unfold Result._update_node. by rewrite Hn.
  - intros s' Hs'. pose proof (update_node_links _ _ _ _ Hs') as [HL HN].
    pose proof (update_node_completed_count _ _ _ _ Hs') as Hc.
    split; [done|]. split; [done|].
    revert Hs'. unfold Result._update_node.
    destruct (electrons s !! nr_node_id r) as [e|] eqn:He; [|done].
    intros Hs'.
    assert (electrons s' = <[nr_node_id r := Result.set_node_values r e]> (electrons s))
      as Hes.
    { revert Hs'. destruct (nr_end_time r), (decide (nr_status r = Some COMPLETED));
        try destruct (String.prefix pp (e_name e)); by intros [= <-]. }
    rewrite Hes. split_and!.
    + intros j Hj. by rewrite list_lookup_insert_ne.
    + exists e. split; [done|]. apply list_lookup_insert_eq.
      by eapply lookup_lt_Some.
    + done.
Qed.

Lemma update_node_frame_witness :
  Result._update_node ":postprocess:" (parameter_result 2 0 0 None) (store chain_world)
  = None
  ∧ ∃ s', Result._update_node ":postprocess:" (parameter_result 1 0 0 None)
            (store chain_world) = Some s'
          ∧ electrons s' !! 0%nat = electrons (store chain_world) !! 0%nat
          ∧ completed_electron_num s' = 1.
Proof.
  destruct (update_node_frame ":postprocess:" (parameter_result 2 0 0 None)
              (store chain_world)) as [Hnone _].
  split; [apply Hnone; simpl; lia|].
  destruct (update_node_frame ":postprocess:" (parameter_result 1 0 0 None)
              (store chain_world)) as [_ Hsome].
  destruct (Result._update_node ":postprocess:" (parameter_result 1 0 0 None)
              (store chain_world)) as [s'|] eqn:E; [|by vm_compute in E].
  destruct (Hsome s' eq_refl) as (_ & _ & Hother & _ & Hc).
  exists s'. split; [done|]. split; [by apply Hother|]. rewrite Hc. reflexivity.
Defined.

(** X13: [_update_node] touches the fields of the dispatch itself only for a
    node whose name before the update has the postprocess prefix and only
    when the update gives an end time: then the dispatch gets that end time,
    the status of the update if it gives one, and as result the output the
    node has after the update.  The name the update itself gives does not
    count: renaming a node to a postprocess name leaves the dispatch as it
    is. *)
Theorem update_node_postprocess (pp : string) (r : NodeResult) (s s' : Store)
    (e : Electron) :
  electrons s !! nr_node_id r = Some e →
  Result._update_node pp r s = Some s' →
  (String.prefix pp (e_name e) = false ∨ nr_end_time r = None →
   dispatch_fields s' = dispatch_fields s)
  ∧ (∀ end_time,
       String.prefix pp (e_name e) = true → nr_end_time r = Some end_time →
       d_end_time s' = Some end_time
       ∧ d_status s' = upd_req (nr_status r) (d_status s)
       ∧ d_result s' = upd (nr_output r) (e_output e)
       ∧ d_start_time s' = d_start_time s
       ∧ d_error s' = d_error s).
Proof.
  intros He H. unfold Result._update_node in H. rewrite He in H. split.
  - intros [Hp|Hend].
    + rewrite Hp in H. revert H.
      destruct (nr_end_time r), (decide (nr_status r = Some COMPLETED));
        by intros [= <-].
    + rewrite Hend in H. revert H.
      destruct (decide (nr_status r = Some COMPLETED)); by intros [= <-].
  - intros end_time Hp Hend. rewrite Hp, Hend in H. revert H.
    destruct (decide (nr_status r = Some COMPLETED)); by intros [= <-].
Qed.

Lemma update_node_postprocess_witness :
  ∃ s', Result._update_node "b"
          {| nr_node_id := 0; nr_node_name := Some "b"; nr_start_time := None;
             nr_end_time := Some 5; nr_status := Some COMPLETED;
             nr_output := Some "out"; nr_error := None; nr_stdout := None;
             nr_stderr := None |} (store chain_world) = Some s'
        ∧ dispatch_fields s' = dispatch_fields (store chain_world).
Proof.
  set (r := {| nr_node_id := 0; nr_node_name := Some "b"; nr_start_time := None;
               nr_end_time := Some 5; nr_status := Some COMPLETED;
               nr_output := Some "out"; nr_error := None; nr_stdout := None;
               nr_stderr := None |}).
  destruct (Result._update_node "b" r (store chain_world)) as [s'|] eqn:E;
    [|by vm_compute in E].
  exists s'. split; [done|].
  apply (proj1 (update_node_postprocess "b" r (store chain_world) s'
                  (electron "a" NEW_OBJECT None "local") eq_refl E)).
  left. reflexivity.
Defined.

(** ** The failed and the cancelled nodes *)

Lemma nodes_with_status_from st (l : list Electron) : ∀ k,
  let found := omap (λ x, x)
                 (imap (λ i e, if decide (e_status e = st)
                               then Some ((k + i)%nat, e_name e) else None) l) in
  StronglySorted lt (map fst found)
  ∧ Forall (λ i, (k ≤ i)%nat) (map fst found).
Proof.
  induction l as [|e l IH]; intros k; simpl.
  - split; constructor.
  - assert (imap ((λ i e0, if decide (e_status e0 = st)
                           then Some ((k + i)%nat, e_name e0) else None) ∘ S) l
            = imap (λ i e0, if decide (e_status e0 = st)
                            then Some ((S k + i)%nat, e_name e0) else None) l) as ->.
    { apply imap_ext. intros i x _. simpl. by rewrite Nat.add_succ_r. }
    destruct (IH (S k)) as [Hs Hk].
    assert (Forall (λ i, (k < i)%nat)
              (map fst (omap (λ x, x)
                 (imap (λ i e0, if decide (e_status e0 = st)
                                then Some ((S k + i)%nat, e_name e0) else None) l))))
      as Hlt.
    { eapply Forall_impl; [exact Hk|]. simpl. intros; lia. }
    case_decide; simpl.
    + rewrite Nat.add_0_r. split.
      * constructor; done.
      * constructor; [lia|]. eapply Forall_impl; [exact Hlt|]. simpl. intros; lia.
    + split; [done|]. eapply Forall_impl; [exact Hlt|]. simpl. intros; lia.
Qed.

(** X14: the failed and the cancelled nodes that [_get_incomplete_nodes]
    returns are listed by increasing node id, each node at most once and
    with its stored name; a node is in the first list exactly when its
    status is FAILED and in the second exactly when it is CANCELLED, so no
    node is in both; and [_get_failed_nodes] is the first list. *)
Theorem incomplete_nodes_listed (s : Store) :
  let failed := (Result._get_incomplete_nodes s).1 in
  let cancelled := (Result._get_incomplete_nodes s).2 in
  StronglySorted lt (map fst failed)
  ∧ StronglySorted lt (map fst cancelled)
  ∧ (∀ i name, (i, name) ∈ failed ↔
       ∃ e, electrons s !! i = Some e ∧ e_status e = FAILED ∧ e_name e = name)
  ∧ (∀ i name, (i, name) ∈ cancelled ↔
       ∃ e, electrons s !! i = Some e ∧ e_status e = CANCELLED ∧ e_name e = name)
  ∧ (∀ i, i ∈ map fst failed → i ∉ map fst cancelled)
  ∧ (∀ i, i ∈ map fst failed ++ map fst cancelled → (i < num_nodes s)%nat)
  ∧ _get_failed_nodes s = failed.
Proof.
  intros failed cancelled. unfold failed, cancelled. simpl.
  split; [apply (nodes_with_status_from FAILED (electrons s) 0)|].
  split; [apply (nodes_with_status_from CANCELLED (electrons s) 0)|].
  split; [intros i name; apply elem_of_nodes_with_status|].
  split; [intros i name; apply elem_of_nodes_with_status|].
  split_and!.
  - intros i ([i1 n1] & -> & H1)%list_elem_of_fmap ([i2 n2] & Heq & H2)%list_elem_of_fmap.
    simpl in Heq. subst i2.
    apply elem_of_nodes_with_status in H1 as (e1 & He1 & Hs1 & _).
    apply elem_of_nodes_with_status in H2 as (e2 & He2 & Hs2 & _).
    congruence.
  - intros i [H|H]%elem_of_app;
      apply list_elem_of_fmap in H as ([i1 n1] & -> & H1);
      apply elem_of_nodes_with_status in H1 as (e1 & He1 & _);
      by eapply lookup_lt_Some.
  - reflexivity.
Qed.

Lemma incomplete_nodes_listed_witness :
  Result._get_incomplete_nodes (store failed_and_cancelled_world)
  = ([(0%nat, "a")], [(1%nat, "b")])
  ∧ ¬ (0%nat ∈ map fst (Result._get_incomplete_nodes
                          (store failed_and_cancelled_world)).2).
Proof.
  split; [reflexivity|].
  destruct (incomplete_nodes_listed (store failed_and_cancelled_world))
    as (_ & _ & _ & _ & Hdisj & _).
  apply Hdisj. left.
Defined.

(** ** The outputs of all nodes *)

Lemma str_inj (i j : nat) : str i = str j → i = j.
Proof.
  unfold str. intros H.
  assert (∀ n, Nat.to_uint n ≠ Nil) as Hnn.
  { intros n. rewrite <- (Unsigned.of_to n) at 1. rewrite Unsigned.to_of.
    apply unorm_nonnil. }
  pose proof (NilZero.usu _ (Hnn i)) as Hi.
  pose proof (NilZero.usu _ (Hnn j)) as Hj.
  rewrite H in Hi. rewrite Hi in Hj. injection Hj as Hj.
  by apply Unsigned.to_uint_inj.
Qed.

Lemma in_string_app (c : ascii) (s t : string) :
  In c (list_ascii_of_string (s +:+ t))
  ↔ In c (list_ascii_of_string s) ∨ In c (list_ascii_of_string t).
Proof. induction s as [|a s IH]; simpl; [tauto|]. rewrite IH. tauto. Qed.

Lemma string_split_unique (c : ascii) : ∀ s1 s2 r1 r2 : string,
  ¬ In c (list_ascii_of_string r1) → ¬ In c (list_ascii_of_string r2) →
  s1 +:+ String c r1 = s2 +:+ String c r2 → s1 = s2 ∧ r1 = r2.
Proof.
  induction s1 as [|a s1 IH]; intros [|b s2] r1 r2 H1 H2 H; simpl in H.
  - by injection H as ->.
  - injection H as Ha Hb. subst. exfalso. apply H1, in_string_app. right. by left.
  - injection H as Ha Hb. subst. exfalso. apply H2, in_string_app. right. by left.
  - injection H as -> H. destruct (IH _ _ _ H1 H2 H) as [-> ->]. done.
Qed.

Lemma digits_only (c : ascii) (d : uint) :
  In c (list_ascii_of_string (NilEmpty.string_of_uint d)) →
  In c (list_ascii_of_string "0123456789").
Proof. induction d; simpl; tauto. Qed.

Lemma str_digits (c : ascii) (n : nat) :
  In c (list_ascii_of_string (str n)) →
  In c (list_ascii_of_string "0123456789").
Proof.
  unfold str, NilZero.string_of_uint. destruct (Nat.to_uint n) eqn:E;
    try (rewrite <- E; apply digits_only); simpl; tauto.
Qed.

Lemma output_key_inj (n1 n2 : string) (i j : nat) :
  output_key n1 i = output_key n2 j → n1 = n2 ∧ i = j.
Proof.
  unfold output_key. intros H.
  change (n1 +:+ String "("%char (str i +:+ ")")
          = n2 +:+ String "("%char (str j +:+ ")")) in H.
  apply string_split_unique in H as [-> H].
  - split; [done|].
    change (str i +:+ String ")"%char EmptyString
            = str j +:+ String ")"%char EmptyString) in H.
    apply string_split_unique in H as [H _]; [by apply str_inj|simpl; tauto..].
  - intros [H'%str_digits|H']%in_string_app; simpl in *;
      repeat (destruct H' as [H'|H']; [discriminate H'|]); done.
  - intros [H'%str_digits|H']%in_string_app; simpl in *;
      repeat (destruct H' as [H'|H']; [discriminate H'|]); done.
Qed.

Lemma foldl_insert_list_to_map {V} (l : list (string * V)) : ∀ m : gmap string V,
  foldl (λ m kv, <[kv.1 := kv.2]> m) m l = list_to_map (reverse l) ∪ m.
Proof.
  induction l as [|[k v] l IH]; intros m; simpl.
  - by rewrite (left_id_L ∅ (∪)).
  - rewrite IH, reverse_cons, list_to_map_app. simpl.
    rewrite <- (assoc_L (∪)). f_equal.
    by rewrite insert_empty, <- insert_union_singleton_l.
Qed.

(** X15: the dict of [get_all_node_outputs] has exactly one entry for each
    node, also when nodes share a name: the id is part of the key, keys of
    different nodes differ, and the entry under the key of a node is the
    output of this node. *)
Theorem all_node_outputs_per_node (s : Store) :
  size (get_all_node_outputs s) = num_nodes s
  ∧ (∀ k v, get_all_node_outputs s !! k = Some v ↔
       ∃ i e, electrons s !! i = Some e
              ∧ k = output_key (e_name e) i ∧ v = e_output e)
  ∧ (∀ i j e e', electrons s !! i = Some e → electrons s !! j = Some e' →
       output_key (e_name e) i = output_key (e_name e') j → i = j).
Proof.
  set (kvs := imap (λ i e, (output_key (e_name e) i, e_output e)) (electrons s)).
  assert (get_all_node_outputs s = list_to_map (reverse kvs)) as Hmap.
  { unfold get_all_node_outputs.
    transitivity (foldl (λ (m : gmap string (option string)) kv,
                           <[kv.1 := kv.2]> m) ∅ kvs).
    - unfold kvs.
      assert (∀ (l : list Electron) (f : nat → Electron → nat * Electron)
                (g : nat → Electron → string * option string)
                (m : gmap string (option string)),
                (∀ i e, g i e = (output_key (e_name (f i e).2) (f i e).1,
                                 e_output (f i e).2)) →
                foldl (λ all ne, <[output_key (e_name ne.2) ne.1 := e_output ne.2]> all)
                      m (imap f l)
                = foldl (λ m kv, <[kv.1 := kv.2]> m) m (imap g l)) as Hgen.
      { induction l as [|e l IH]; intros f g m Hfg; simpl; [done|].
        rewrite (Hfg 0%nat e). simpl. apply IH. intros i e0. apply Hfg. }
      apply (Hgen (electrons s) pair). done.
    - by rewrite foldl_insert_list_to_map, (right_id_L ∅ (∪)). }
  assert (∀ k v, (k, v) ∈ kvs ↔
            ∃ i e, electrons s !! i = Some e
                   ∧ k = output_key (e_name e) i ∧ v = e_output e) as Hin.
  { intros k v. unfold kvs. rewrite list_elem_of_lookup. split.
    - intros (i & Hi). rewrite list_lookup_imap in Hi.
      destruct (electrons s !! i) as [e|] eqn:He; [|done].
      injection Hi as <- <-. by exists i, e.
    - intros (i & e & He & -> & ->). exists i.
      by rewrite list_lookup_imap, He. }
  assert (NoDup kvs.*1) as Hnd.
  { apply NoDup_alt. intros i j k Hi Hj.
    rewrite list_lookup_fmap in Hi, Hj. unfold kvs in Hi, Hj.
    rewrite list_lookup_imap in Hi, Hj.
    destruct (electrons s !! i) as [e|]; [|done].
    destruct (electrons s !! j) as [e'|]; [|done].
    simpl in Hi, Hj. injection Hi as Hi. injection Hj as Hj.
    rewrite <- Hj in Hi. by apply output_key_inj in Hi as [_ ?]. }
  assert (NoDup (reverse kvs).*1) as Hnd'.
  { rewrite fmap_reverse. eapply NoDup_Permutation_proper; [|exact Hnd].
    apply reverse_Permutation. }
  split_and!.
  - rewrite Hmap, map_size_list_to_map by done.
    unfold kvs, num_nodes. by rewrite length_reverse, length_imap.
  - intros k v. rewrite Hmap, <- Hin, <- elem_of_list_to_map by done.
    by rewrite elem_of_reverse.
  - intros i j e e' _ _ H. by apply output_key_inj in H as [_ ?].
Qed.
